(** * SimpleITK notebooks: orientation search and least-squares sphere fit

    A shallow embedding of the two pieces of original logic in the
    notebooks:

    - the registration-initialisation notebook (cells "MetricEvaluate" and
      "Exhaustive optimizer"), which samples the similarity metric at a
      catalogue of orientations and keeps the best one;
    - the segmentation notebook (cell "Get the 3D location of the edge
      points and fit a sphere to them"), which sets up a linear system from
      edge points, hands it to [linalg.lstsq] and prints the radius.

    Floating-point values are idealised as real numbers: [np.pi] is [PI],
    a similarity value is a real, and [np.sqrt] of a negative number is the
    one place where the float result [nan] is kept. *)

From Stdlib Require Import Reals Lra List String Permutation.
From stdpp Require Import list.
Import ListNotations.
Open Scope R_scope.

(** ** Part I: definitions *)

(** Sum of a list of reals, and the dot product of two vectors. *)
Definition sum_R (v : list R) : R := fold_right Rplus 0 v.

Definition dot (u v : list R) : R :=
  sum_R (map (fun p => fst p * snd p) (combine u v)).

Module Registration.

(** Rotation angles (angle_x, angle_y, angle_z), in radians. *)
Definition angles : Type := R * R * R.

Definition vector3 : Type := R * R * R.

(** [sitk.Euler3DTransform]: rotation about a fixed centre, then a
    translation.  Only the fields the notebook reads or writes. *)
Record Euler3DTransform : Type := mkEuler3D {
  rotation : angles;
  translation : vector3;
  center : vector3
}.

(** [sitk.Euler3DTransform()] *)
Definition Euler3DTransform_default : Euler3DTransform :=
  {| rotation := (0, 0, 0); translation := (0, 0, 0); center := (0, 0, 0) |}.

(** [t.SetRotation(angle_x, angle_y, angle_z)] *)
Definition SetRotation (t : Euler3DTransform) (a : angles) : Euler3DTransform :=
  {| rotation := a; translation := translation t; center := center t |}.

(** The order of parameters for the Euler3DTransform is
    [angle_x, angle_y, angle_z, t_x, t_y, t_z]. *)
Definition GetParameters (t : Euler3DTransform) : list R :=
  let '(ax, ay, az) := rotation t in
  let '(tx, ty, tz) := translation t in
  [ax; ay; az; tx; ty; tz].

Definition SetParameters (t : Euler3DTransform) (p : list R) : Euler3DTransform :=
  match p with
  | [ax; ay; az; tx; ty; tz] =>
      {| rotation := (ax, ay, az); translation := (tx, ty, tz); center := center t |}
  | _ => t
  end.

(** The dictionary with all the orientations the notebook tries, as the
    sequence of its items in the order of the literal.  The identity is
    omitted, it is always used.  The order in which [items()] yields them
    is not fixed by the language version of the notebook, so the facts
    about the loop below are stated for any sequence of items. *)
Definition all_orientations : list (string * angles) :=
  [ ("x=0, y=0, z=90"%string,    (0, 0, PI / 2));
    ("x=0, y=0, z=-90"%string,   (0, 0, - PI));
    ("x=0, y=0, z=180"%string,   (0, 0, PI));
    ("x=180, y=0, z=0"%string,   (PI, 0, 0));
    ("x=180, y=0, z=90"%string,  (PI, 0, PI / 2));
    ("x=180, y=0, z=-90"%string, (PI, 0, - PI / 2));
    ("x=180, y=0, z=180"%string, (PI, 0, PI)) ].

(** [d[key]] on the items of a dictionary. *)
Fixpoint dict_get {V : Type} (key : string) (items : list (string * V)) : option V :=
  match items with
  | [] => None
  | (k, v) :: rest => if String.eqb key k then Some v else dict_get key rest
  end.

(** *** The rotation an angle triple stands for

    The library's Euler3DTransform composes the three elementary rotations
    as Rz * Rx * Ry (its default, ZXY, order). *)
Definition matrix3 : Type := list (list R).

Definition RotationX (a : R) : matrix3 :=
  [ [1; 0; 0]; [0; cos a; - sin a]; [0; sin a; cos a] ].

Definition RotationY (a : R) : matrix3 :=
  [ [cos a; 0; sin a]; [0; 1; 0]; [- sin a; 0; cos a] ].

Definition RotationZ (a : R) : matrix3 :=
  [ [cos a; - sin a; 0]; [sin a; cos a; 0]; [0; 0; 1] ].

Definition column (j : nat) (m : matrix3) : list R :=
  map (fun row => nth j row 0) m.

Definition mat_mul (a b : matrix3) : matrix3 :=
  map (fun row => map (fun j => dot row (column j b)) (seq 0 3)) a.

(** Entry (i,j) of a matrix. *)
Definition entry (i j : nat) (m : matrix3) : R := nth j (nth i m []) 0.

Definition rotation_matrix (a : angles) : matrix3 :=
  let '(ax, ay, az) := a in
  mat_mul (mat_mul (RotationZ az) (RotationX ax)) (RotationY ay).

(** *** Strategy 1: MetricEvaluate on every catalogue entry *)

Section MetricEvaluate.

(** The value [registration_method.MetricEvaluate(fixed_image,
    modified_moving_image)] returns on its [n]-th call (counting from 0)
    when the method's initial transform is [t].  The call index is there
    because the metric samples the images at random (RANDOM, 1%), so two
    calls at the same transform need not agree. *)
Variable metric_value : nat -> Euler3DTransform -> R.

(** What CenteredTransformInitializer (GEOMETRY) derives from the two
    images: the translation aligning their centres and the centre of
    rotation. *)
Variables geometry_translation geometry_center : vector3.

(** [sitk.CenteredTransformInitializer(fixed_image, modified_moving_image,
    t, GEOMETRY)]: sets centre and translation, the rotation of [t] is
    kept. *)
Definition CenteredTransformInitializer (t : Euler3DTransform) : Euler3DTransform :=
  {| rotation := rotation t;
     translation := geometry_translation;
     center := geometry_center |}.

(** [registration_method.MetricEvaluate(fixed_image, modified_moving_image)]
    with the method's initial transform [t].  [log] records every call
    made so far, oldest first: the transform the metric was evaluated at
    and the value returned. *)
Definition MetricEvaluate (t : Euler3DTransform) (log : list (Euler3DTransform * R))
  : R * list (Euler3DTransform * R) :=
  let v := metric_value (length log) t in
  (v, log ++ [(t, v)]).

(** The variables of the cell, the transform held by
    [registration_method], and the log of MetricEvaluate calls. *)
Record search_state : Type := mkState {
  initial_transform : Euler3DTransform;
  method_transform : Euler3DTransform;
  best_orientation : angles;
  best_similarity_value : R;
  evaluations : list (Euler3DTransform * R)
}.

(** State after
<<
  initial_transform = sitk.Euler3DTransform(sitk.CenteredTransformInitializer(...))
  registration_method.SetInitialTransform(initial_transform, inPlace=False)
  best_orientation = (0.0,0.0,0.0)
  best_similarity_value = registration_method.MetricEvaluate(fixed_image, modified_moving_image)
>> *)
Definition search_init : search_state :=
  let t := CenteredTransformInitializer Euler3DTransform_default in
  let '(v, log) := MetricEvaluate t [] in
  {| initial_transform := t;
     method_transform := t;
     best_orientation := (0, 0, 0);
     best_similarity_value := v;
     evaluations := log |}.

(** One iteration of
<<
  for key, orientation in all_orientations.items():
      initial_transform.SetRotation( *orientation)
      registration_method.SetInitialTransform(initial_transform)
      current_similarity_value = registration_method.MetricEvaluate(fixed_image, modified_moving_image)
      if current_similarity_value < best_similarity_value:
          best_similarity_value = current_similarity_value
          best_orientation = orientation
>> *)
Definition search_step (st : search_state) (item : string * angles) : search_state :=
  let orientation := snd item in
  let t := SetRotation (initial_transform st) orientation in
  let '(current_similarity_value, log) := MetricEvaluate t (evaluations st) in
  if Rlt_dec current_similarity_value (best_similarity_value st) then
    {| initial_transform := t;
       method_transform := t;
       best_orientation := orientation;
       best_similarity_value := current_similarity_value;
       evaluations := log |}
  else
    {| initial_transform := t;
       method_transform := t;
       best_orientation := best_orientation st;
       best_similarity_value := best_similarity_value st;
       evaluations := log |}.

(** The state when the loop over the catalogue is done. *)
Definition search_loop (catalogue : list (string * angles)) : search_state :=
  fold_left search_step catalogue search_init.

(** The whole cell up to [initial_transform.SetRotation( *best_orientation)]:
    the transform handed to the multi-resolution registration, the
    winning orientation and its similarity value. *)
Definition orientation_search (catalogue : list (string * angles))
  : Euler3DTransform * angles * R :=
  let st := search_loop catalogue in
  (SetRotation (initial_transform st) (best_orientation st),
   best_orientation st,
   best_similarity_value st).

End MetricEvaluate.

(** *** Strategy 2: the Exhaustive optimizer

    The optimizer is the library's.  It is modelled as the notebook
    describes it: the similarity measure is evaluated on a grid overlaid on
    the parameter space, centred on the parameter values of the initial
    transform; along parameter [d] the grid has [2*numberOfSteps[d]+1]
    vertices, [stepLength*scales[d]] apart; the first parameter varies
    fastest.  The best position is the one with the smallest value, and
    with [inPlace=True] it is written back into the initial transform. *)

Definition axis_values (stepLength : R) (p0 : R) (steps : nat) (scale : R) : list R :=
  map (fun i => p0 + (INR i - INR steps) * stepLength * scale)
      (seq 0 (2 * steps + 1)).

Fixpoint grid_axes (stepLength : R) (p0 : list R) (numberOfSteps : list nat)
    (scales : list R) : list (list R) :=
  match p0, numberOfSteps, scales with
  | p :: p0', n :: steps', s :: scales' =>
      axis_values stepLength p n s :: grid_axes stepLength p0' steps' scales'
  | _, _, _ => []
  end.

Fixpoint grid_points (axes : list (list R)) : list (list R) :=
  match axes with
  | [] => [[]]
  | axis :: rest =>
      flat_map (fun tail => map (fun v => v :: tail) axis) (grid_points rest)
  end.

Section Exhaustive.

Variable metric_value : nat -> Euler3DTransform -> R.
Variables geometry_translation geometry_center : vector3.

(** The optimizer's running minimum, the best position so far and its
    value, and the log of evaluations. *)
Record optimizer_state : Type := mkOptimizer {
  minimum : list R * R;
  metric_calls : list (Euler3DTransform * R)
}.

(** One vertex: the measure is evaluated there, and the vertex becomes
    the minimum only when its value is strictly below the running one. *)
Definition exhaustive_visit (t0 : Euler3DTransform) (st : optimizer_state)
    (position : list R) : optimizer_state :=
  let '(v, log) :=
    MetricEvaluate metric_value (SetParameters t0 position) (metric_calls st) in
  if Rlt_dec v (snd (minimum st))
  then {| minimum := (position, v); metric_calls := log |}
  else {| minimum := minimum st; metric_calls := log |}.

(** [registration_method.Execute] with the Exhaustive optimizer walking
    the vertices in the order [vertices], on the transform [t0] in place:
    the transform afterwards, and the optimizer's state.  The walk starts
    from the value at the initial position, which is the first minimum, so
    that a vertex which only ties with the centre of the grid does not
    replace it. *)
Definition exhaustive_walk (t0 : Euler3DTransform) (vertices : list (list R))
  : Euler3DTransform * optimizer_state :=
  let '(v0, log) := MetricEvaluate metric_value t0 [] in
  let st := fold_left (exhaustive_visit t0) vertices
              {| minimum := (GetParameters t0, v0); metric_calls := log |} in
  (SetParameters t0 (fst (minimum st)), st).

(** The vertices for
<<
  registration_method.SetOptimizerAsExhaustive(numberOfSteps=[1,0,2,0,0,0], stepLength = np.pi)
  registration_method.SetOptimizerScales([1,1,0.5,1,1,1])
>>  around the transform [t0]. *)
Definition exhaustive_grid (t0 : Euler3DTransform) : list (list R) :=
  grid_points
    (grid_axes PI (GetParameters t0) [1; 0; 2; 0; 0; 0]%nat [1; 1; 0.5; 1; 1; 1]).

(** The cell: initial transform from the image geometry, then the
    exhaustive search in place. *)
Definition exhaustive_search : Euler3DTransform * optimizer_state :=
  let initial_transform :=
    CenteredTransformInitializer geometry_translation geometry_center
      Euler3DTransform_default in
  exhaustive_walk initial_transform (exhaustive_grid initial_transform).

End Exhaustive.

(** *** Two concrete surfaces used as worked inputs *)

(** A value read off the rotation matrix alone, so that two triples of
    angles for the same rotation score the same: entry (1,0) minus entry
    (2,2).  It is least, -2, at the rotation by -90 degrees about z. *)
Definition matrix_surface (t : Euler3DTransform) : R :=
  let m := rotation_matrix (rotation t) in entry 1 0 m - entry 2 2 m.

(** The value falls with both angle_x and angle_z: least at (pi, 0, pi)
    on the grid. *)
Definition falling_surface (t : Euler3DTransform) : R :=
  let '(ax, _, az) := rotation t in - ax - az.

(** The evaluator of the end-to-end scenario: the n-th call returns the
    n-th of 0.8 (identity), 0.3, 0.9, 0.5. *)
Definition scenario_metric (n : nat) (_ : Euler3DTransform) : R :=
  nth n [0.8; 0.3; 0.9; 0.5] 0.

End Registration.

Module SphereFit.

(** A physical point as [TransformIndexToPhysicalPoint] returns it. *)
Definition point : Type := R * R * R.

(** [np.array(point)] *)
Definition np_array (p : point) : list R :=
  let '(x, y, z) := p in [x; y; z].

(** [c * v] on an array. *)
Definition scale (c : R) (v : list R) : list R := map (Rmult c) v.

(** [linalg.norm(v)], the 2-norm. *)
Definition norm (v : list R) : R := sqrt (sum_R (map (fun x => x * x) v)).

(** [np.ones((n,m))] and [np.zeros(n)] *)
Definition ones (n m : nat) : list (list R) := repeat (repeat 1 m) n.

Definition zeros (n : nat) : list R := repeat 0 n.

(** [enumerate(l)] *)
Definition enumerate {A : Type} (l : list A) : list (nat * A) :=
  combine (seq 0 (length l)) l.

(** A float that may be [nan]: what [np.sqrt] returns. *)
Inductive np_float : Type :=
| Finite (r : R)
| NaN.

(** [np.sqrt(x)]: [nan] (and a warning, no exception) for a negative
    argument. *)
Definition np_sqrt (x : R) : np_float :=
  if Rlt_dec x 0 then NaN else Finite (sqrt x).

(** A Python computation either returns or raises the named exception. *)
Inductive result (A : Type) : Type :=
| Return (a : A)
| Raise (exception : string).
Arguments Return {A} a.
Arguments Raise {A} exception.

(** One iteration of
<<
    for row, point in enumerate(physical_points):
        A[row,0:3] = -2*np.array(point)
        b[row] = -linalg.norm(point)**2
>> *)
Definition fill_row (Ab : list (list R) * list R) (item : nat * point)
  : list (list R) * list R :=
  let '(A, b) := Ab in
  let '(row, point) := item in
  (alter (fun r => scale (-2) (np_array point) ++ drop 3 r) row A,
   <[row := - (norm (np_array point)) ^ 2]> b).

(** The linear equation system of the cell: [A] starts as ones, [b] as
    zeros, then the loop fills them. *)
Definition linear_system (physical_points : list point) : list (list R) * list R :=
  let A := ones (length physical_points) 4 in
  let b := zeros (length physical_points) in
  fold_left fill_row (enumerate physical_points) (A, b).

(** [np.sqrt(linalg.norm(res[0:3])**2 - res[3])] *)
Definition radius (res : list R) : result np_float :=
  match res !! 3%nat with
  | Some k => Return (np_sqrt ((norm (take 3 res)) ^ 2 - k))
  | None => Raise "IndexError"
  end.

Section Fit.

(** [linalg.lstsq(A,b)], the solution component of what it returns, or
    the exception it raises. *)
Variable lstsq : list (list R) -> list R -> result (list R).

(** The cell from the set-up of the system to the radius: the centre
    [res[0:3]] and the radius it prints. *)
Definition sphere_fit (physical_points : list point) : result (list R * np_float) :=
  let '(A, b) := linear_system physical_points in
  match lstsq A b with
  | Raise e => Raise e
  | Return res =>
      match radius res with
      | Raise e => Raise e
      | Return r => Return (take 3 res, r)
      end
  end.

End Fit.

(** *** The linear system in the words of the specification

    row_i = [-2x_i, -2y_i, -2z_i, 1],  rhs_i = -|p_i|^2 *)
Definition spec_row (p : point) : list R :=
  let '(x, y, z) := p in [-2 * x; -2 * y; -2 * z; 1].

Definition spec_rhs (p : point) : R :=
  let '(x, y, z) := p in - (x * x + y * y + z * z).

(** *** What a least-squares solution is *)

(** ||A.u - b||^2 *)
Definition residual (A : list (list R)) (b u : list R) : R :=
  sum_R (map (fun rb => (dot (fst rb) u - snd rb) ^ 2) (combine A b)).

(** [u] minimises ||A.u - b||^2 over the vectors with four components. *)
Definition least_squares (A : list (list R)) (b u : list R) : Prop :=
  length u = 4%nat /\
  forall u' : list R, length u' = 4%nat -> residual A b u <= residual A b u'.

(** [lstsq] answers such a minimiser, and for a rank-deficient system the
    one of least norm. *)
Definition minimum_norm (A : list (list R)) (b u : list R) : Prop :=
  least_squares A b u /\
  forall u' : list R, least_squares A b u' -> norm u <= norm u'.

(** [A] has full column rank: only the zero vector is mapped to zero. *)
Definition full_column_rank (A : list (list R)) : Prop :=
  forall u : list R, length u = 4%nat ->
    (forall row, In row A -> dot row u = 0) -> u = [0; 0; 0; 0].

(** The point lies on the sphere of centre [c] and radius [r]. *)
Definition on_sphere (c : point) (r : R) (p : point) : Prop :=
  let '(cx, cy, cz) := c in
  let '(x, y, z) := p in
  (x - cx) ^ 2 + (y - cy) ^ 2 + (z - cz) ^ 2 = r ^ 2.

(** *** Quantities the proofs speak about *)

(** The error of the equation of [p] at the unknowns [u]. *)
Definition equation_error (u : list R) (p : point) : R :=
  dot (spec_row p) u - spec_rhs p.

(** Squared distance from [p] to [c]. *)
Definition dist2 (c p : point) : R :=
  let '(cx, cy, cz) := c in
  let '(x, y, z) := p in
  (x - cx) * (x - cx) + (y - cy) * (y - cy) + (z - cz) * (z - cz).

(** *** Worked inputs *)

(** A solver that answers [u] whatever the system. *)
Definition answering (u : list R) : list (list R) -> list R -> result (list R) :=
  fun _ _ => Return u.

(** A solver that answers [u] on the systems of matrix [A], and [u'] on
    any other. *)
Definition answering_on (A : list (list R)) (u u' : list R)
  : list (list R) -> list R -> result (list R) :=
  fun A' _ =>
    if List.list_eq_dec (List.list_eq_dec Req_EM_T) A' A then Return u
    else Return u'.

(** Three points: every sphere through the unit points of the axes fits
    them exactly. *)
Definition three_points : list point := [ (1, 0, 0); (0, 1, 0); (0, 0, 1) ].

(** Ten points on the sphere of centre (1,2,3) and radius 5. *)
Definition ten_points : list point :=
  [ (6, 2, 3); (-4, 2, 3); (1, 7, 3); (1, -3, 3); (1, 2, 8); (1, 2, -2);
    (4, 6, 3); (5, 2, 6); (1, 5, 7); (-2, 2, -1) ].

End SphereFit.

(** *** Moving and rescaling a point set; points in a plane *)

Module PointSets.

Import SphereFit.

(** The point [p] moved by [d]. *)
Definition translate (d p : point) : point :=
  let '(dx, dy, dz) := d in
  let '(x, y, z) := p in
  (x + dx, y + dy, z + dz).

(** The point [p] with every coordinate multiplied by [s]. *)
Definition rescale (s : R) (p : point) : point :=
  let '(x, y, z) := p in (s * x, s * y, s * z).

Definition inner (a b : point) : R :=
  let '(ax, ay, az) := a in
  let '(bx, by', bz) := b in
  ax * bx + ay * by' + az * bz.

(** The unknowns [cx, cy, cz, k] of the sphere moved by [d]: the centre
    moves by [d], the radius stays. *)
Definition translate_unknowns (d : point) (u : list R) : list R :=
  match u with
  | [cx; cy; cz; k] =>
      let '(dx, dy, dz) := d in
      [cx + dx; cy + dy; cz + dz;
       k + 2 * (cx * dx + cy * dy + cz * dz) + (dx * dx + dy * dy + dz * dz)]
  | _ => u
  end.

(** The unknowns of the sphere rescaled by [s]. *)
Definition rescale_unknowns (s : R) (u : list R) : list R :=
  match u with
  | [cx; cy; cz; k] => [s * cx; s * cy; s * cz; s * s * k]
  | _ => u
  end.

(** The unknowns moved by [t] along the direction that the equations of
    points in the plane n.p = d cannot see. *)
Definition slide_unknowns (n : point) (d t : R) (u : list R) : list R :=
  match u with
  | [cx; cy; cz; k] =>
      let '(nx, ny, nz) := n in
      [cx + t * nx; cy + t * ny; cz + t * nz; k + 2 * t * d]
  | _ => u
  end.

(** All the points lie in the plane n.p = d. *)
Definition coplanar (n : point) (d : R) (points : list point) : Prop :=
  n <> (0, 0, 0) /\ Forall (fun p => inner n p = d) points.

(** Four points of the unit circle of the plane z = 0. *)
Definition circle_points : list point :=
  [ (1, 0, 0); (0, 1, 0); (-1, 0, 0); (0, -1, 0) ].

End PointSets.

(** *** The display helpers of the imshow notebook *)

Module Display.

Import SphereFit.

(** The shape of [sitk.GetArrayFromImage(img)] for an image of the given
    size and number of components per pixel: the size reversed (z,y,x),
    followed by the components when there are several. *)
Definition array_shape (size : list nat) (components : nat) : list nat :=
  rev size ++ (if components =? 1 then [] else [components])%nat.

(** [c in (3,4)] *)
Definition in_3_4 (c : nat) : bool := ((c =? 3) || (c =? 4))%nat.

(** [nda[nda.shape[0]//2, :, ...]]: the index taken along the first axis
    and the shape of the slice; the first axis is indexed, which needs it
    to be non-empty. *)
Definition mid_slice (shape : list nat) : result (option nat * list nat) :=
  match shape with
  | n :: rest =>
      if (n / 2 <? n)%nat then Return (Some (n / 2)%nat, rest)
      else Raise "IndexError"
  | [] => Raise "IndexError"
  end.

(** The first part of [myshow]: which array goes on, as the index of the
    slice taken from the image's array (none when the whole array goes
    on) and its shape.
<<
    if nda.ndim == 3:
        c = nda.shape[-1]
        if not c in (3,4):
            nda = nda[nda.shape[0]//2,:,:]
    elif nda.ndim == 4:
        c = nda.shape[-1]
        if not c in (3,4):
            raise Runtime("Unable to show 3D-vector Image")
        nda = nda[nda.shape[0]//2,:,:,:]
>>  [Runtime] is no name of the notebook or of the language, so
    evaluating it is what raises, with a NameError. *)
Definition select_array (shape : list nat) : result (option nat * list nat) :=
  match length shape with
  | 3%nat =>
      if in_3_4 (List.last shape 0%nat) then Return (None, shape)
      else mid_slice shape
  | 4%nat =>
      if in_3_4 (List.last shape 0%nat) then mid_slice shape
      else Raise "NameError"
  | _ => Return (None, shape)
  end.

(** [if(title)]: a title that is given and not empty. *)
Definition truthy (title : option string) : bool :=
  match title with
  | Some EmptyString => false
  | Some _ => true
  | None => false
  end.

(** What [myshow] asks of matplotlib: the array handed to [imshow]
    (which slice of the image's array, and its shape), the size of the
    figure, the box of the axes, the extent, the colour map and the
    title.  The requests are matplotlib's to accept or refuse (it refuses
    a figure size or a box that is not positive); a [figure] stands for
    the requests made when none is refused. *)
Record figure : Type := mkFigure {
  shown_slice : option nat;
  shown_shape : list nat;
  figsize : R * R;
  axes_rect : list R;
  extent : R * R * R * R;
  cmap_gray : bool;
  shown_title : option string
}.

(** [myshow(img, title, margin, dpi)], on the shape of the image's array
    and its spacing. *)
Definition myshow (shape : list nat) (spacing : list R) (title : option string)
    (margin dpi : R) : result figure :=
  match select_array shape with
  | Raise e => Raise e
  | Return (cut, nda) =>
      match nda !! 0%nat, nda !! 1%nat with
      | Some ysize, Some xsize =>
          if Req_EM_T dpi 0 then Raise "ZeroDivisionError"
          else
            match spacing !! 1%nat, spacing !! 0%nat with
            | Some spacing1, Some spacing0 =>
                Return
                  {| shown_slice := cut;
                     shown_shape := nda;
                     figsize := ((1 + margin) * INR ysize / dpi,
                                 (1 + margin) * INR xsize / dpi);
                     axes_rect := [margin; margin; 1 - 2 * margin; 1 - 2 * margin];
                     extent := (0, INR xsize * spacing1, INR ysize * spacing0, 0);
                     cmap_gray := (length nda =? 2)%nat;
                     shown_title := if truthy title then title else None |}
            | _, _ => Raise "IndexError"
            end
      | _, _ => Raise "IndexError"
      end
  end.

(** [range(start, stop, step)] *)
Definition range_length (start stop step : Z) : Z :=
  if (0 <? step)%Z then ((stop - start + step - 1) / step)%Z
  else ((start - stop - step - 1) / (- step))%Z.

Definition py_range (start stop step : Z) : result (list Z) :=
  if (step =? 0)%Z then Raise "ValueError"
  else Return (map (fun i => (start + Z.of_nat i * step)%Z)
                   (seq 0 (Z.to_nat (range_length start stop step)))).

(** The positions of the cell
<<
    nslices = 5
    slices = [ img_T1[:,:,s] for s in range(0, size[2], size[0]//(nslices+1))]
>> *)
Definition slice_positions (size0 size2 nslices : Z) : result (list Z) :=
  py_range 0 size2 (size0 / (nslices + 1))%Z.

Section Myshow3d.

(** Images and the library calls [myshow3d] makes on them. *)
Variable Image : Type.
Variables slice_x slice_y slice_z : Image -> Z -> Image.
Variable null_image : Image -> Image.
Variable components : Image -> nat.
Variable Tile : list Image -> list nat -> Image.
Variable VectorIndexSelectionCast : Image -> nat -> Image.
Variable Compose : list Image -> Image.

(** [slices + [img_null]*(maxlen-len(slices))] *)
Definition padded (slices : list Image) (img_null : Image) (maxlen : nat) : list Image :=
  slices ++ repeat img_null (maxlen - length slices).

(** One of
<<
    if len(img_xslices):
        img_slices += img_xslices + [img_null]*(maxlen-len(img_xslices))
        d += 1
>> *)
Definition add_row (slices : list Image) (img_null : Image) (maxlen : nat)
    (acc : list Image * nat) : list Image * nat :=
  let '(img_slices, d) := acc in
  if (length slices =? 0)%nat then (img_slices, d)
  else (img_slices ++ padded slices img_null maxlen, d + 1)%nat.

(** [myshow3d] up to the tiling: the list of slices, [maxlen] and [d]. *)
Definition myshow3d_slices (img : Image) (xslices yslices zslices : list Z)
  : list Image * nat * nat :=
  let img_xslices := map (slice_x img) xslices in
  let img_yslices := map (slice_y img) yslices in
  let img_zslices := map (slice_z img) zslices in
  let maxlen :=
    Nat.max (length img_xslices) (Nat.max (length img_yslices) (length img_zslices)) in
  let img_null := null_image img in
  let acc := add_row img_xslices img_null maxlen ([], 0%nat) in
  let acc := add_row img_yslices img_null maxlen acc in
  let '(img_slices, d) := add_row img_zslices img_null maxlen acc in
  (img_slices, maxlen, d).

(** The image [myshow3d] hands to [myshow]. *)
Definition myshow3d_image (img : Image) (xslices yslices zslices : list Z) : Image :=
  let '(img_slices, maxlen, d) := myshow3d_slices img xslices yslices zslices in
  if (maxlen =? 0)%nat then img
  else if (components img =? 1)%nat then Tile img_slices [maxlen; d]
  else
    Compose
      (map (fun i =>
              Tile (map (fun s => VectorIndexSelectionCast s i) img_slices)
                   [maxlen; d])
           (seq 0 (components img))).

End Myshow3d.

End Display.

(** *** The region of interest of the segmentation notebook *)

Module Roi.

Import SphereFit.

(** [range(a, b)] of the notebook's language version: a list. *)
Definition py2_range (a b : nat) : list nat := seq a (b - a).

Definition rois : list (string * list (list nat)) :=
  [ ("ROI1"%string, [py2_range 280 320; py2_range 65 90; py2_range 8 30]);
    ("ROI2"%string, [py2_range 200 240; py2_range 65 100; py2_range 15 40]) ].

Definition mask_value : Z := 255%Z.

(** [roi_list = rois.keys(); roi_list.insert(0,'Select ROI')] *)
Definition roi_list (roi_dict : list (string * list (list nat))) : list string :=
  "Select ROI"%string :: map fst roi_dict.

(** A 3-D image of integers: its size and its pixels. *)
Record image : Type := mkImage {
  size : nat * nat * nat;
  pixel : nat -> nat -> nat -> Z
}.

(** [sitk.Image(size, sitk.sitkUInt8)]: all zero. *)
Definition new_image (sz : nat * nat * nat) : image :=
  {| size := sz; pixel := fun _ _ _ => 0%Z |}.

Definition in_bounds (img : image) (x y z : nat) : bool :=
  let '(sx, sy, sz) := size img in
  ((x <? sx) && (y <? sy) && (z <? sz))%nat.

(** [img[x,y,z] = v] *)
Definition set_pixel (img : image) (x y z : nat) (v : Z) : result image :=
  if in_bounds img x y z then
    Return {| size := size img;
              pixel := fun x' y' z' =>
                         if ((x' =? x) && (y' =? y) && (z' =? z))%nat then v
                         else pixel img x' y' z' |}
  else Raise "IndexError".

(** [for a in l: body], stopping at the first exception. *)
Fixpoint for_each {A S : Type} (l : list A) (body : S -> A -> result S) (s : S)
  : result S :=
  match l with
  | [] => Return s
  | a :: l' =>
      match body s a with
      | Return s' => for_each l' body s'
      | Raise e => Raise e
      end
  end.

(** The two globals of the notebook; [None] is the value None. *)
Record globals : Type := mkGlobals {
  mask : option image;
  mask_ranges : option (list (list nat))
}.

(** [l[i]] on a list. *)
Definition item {A : Type} (l : list A) (i : nat) : result A :=
  match l !! i with
  | Some a => Return a
  | None => Raise "IndexError"
  end.

(** The three nested loops of the callback on the mask [m]. *)
Definition fill_mask (ranges : list (list nat)) (m : image) : result image :=
  match item ranges 0 with
  | Raise e => Raise e
  | Return r0 =>
      for_each r0
        (fun m x =>
           match item ranges 1 with
           | Raise e => Raise e
           | Return r1 =>
               for_each r1
                 (fun m y =>
                    match item ranges 2 with
                    | Raise e => Raise e
                    | Return r2 =>
                        for_each r2 (fun m z => set_pixel m x y z mask_value) m
                    end) m
           end) m
  end.

(** [select_roi_dropdown_callback(roi_name, roi_dict)] on the globals,
    for an image of size [image_size]; the display of the overlay is left
    out.
<<
    mask_ranges = roi_dict.get(roi_name)
    if mask_ranges:
        mask = sitk.Image(spherical_fiducials_image.GetSize(), sitk.sitkUInt8)
        ...
>> *)
Definition select_roi_dropdown_callback (image_size : nat * nat * nat)
    (roi_name : string) (roi_dict : list (string * list (list nat)))
    (g : globals) : result globals :=
  match Registration.dict_get roi_name roi_dict with
  | None => Return {| mask := mask g; mask_ranges := None |}
  | Some [] => Return {| mask := mask g; mask_ranges := Some [] |}
  | Some ranges =>
      match fill_mask ranges (new_image image_size) with
      | Raise e => Raise e
      | Return m => Return {| mask := Some m; mask_ranges := Some ranges |}
      end
  end.

(** [r[0]] and [r[-1]] *)
Definition first_item (r : list nat) : result nat := item r 0.

Definition last_item (r : list nat) : result nat :=
  match r with
  | [] => Raise "IndexError"
  | _ :: _ => Return (List.last r 0%nat)
  end.

(** The indices a slice [start:stop] selects on an axis of [n] entries. *)
Definition slice_indices (start stop n : nat) : list nat :=
  seq (Nat.min start n) (Nat.min stop n - Nat.min start n).

(** The indices of one axis of
<<
    sub_image = spherical_fiducials_image[mask_ranges[0][0]:mask_ranges[0][-1], ...]
>> *)
Definition crop_axis (ranges : list (list nat)) (axis n : nat) : result (list nat) :=
  match item ranges axis with
  | Raise e => Raise e
  | Return r =>
      match first_item r with
      | Raise e => Raise e
      | Return start =>
          match item ranges axis with
          | Raise e => Raise e
          | Return r' =>
              match last_item r' with
              | Raise e => Raise e
              | Return stop => Return (slice_indices start stop n)
              end
          end
      end
  end.

(** The region the crop cell selects: the indices along x, y and z. *)
Definition crop_region (image_size : nat * nat * nat) (g : globals)
  : result (list nat * list nat * list nat) :=
  match mask_ranges g with
  | None => Raise "TypeError"
  | Some ranges =>
      let '(sx, sy, sz) := image_size in
      match crop_axis ranges 0 sx with
      | Raise e => Raise e
      | Return xs =>
          match crop_axis ranges 1 sy with
          | Raise e => Raise e
          | Return ys =>
              match crop_axis ranges 2 sz with
              | Raise e => Raise e
              | Return zs => Return (xs, ys, zs)
              end
          end
      end
  end.

(** The number of values of
<<
    roi_intensity_values = intensity_values[mask_ranges[2][0]:mask_ranges[2][-1],
                                            mask_ranges[1][0]:mask_ranges[1][-1],
                                            mask_ranges[0][0]:mask_ranges[0][-1]].flatten()
>>  the array having the axes z, y, x of the image. *)
Definition roi_intensity_count (image_size : nat * nat * nat) (g : globals)
  : result nat :=
  match mask_ranges g with
  | None => Raise "TypeError"
  | Some ranges =>
      let '(sx, sy, sz) := image_size in
      match crop_axis ranges 2 sz with
      | Raise e => Raise e
      | Return zs =>
          match crop_axis ranges 1 sy with
          | Raise e => Raise e
          | Return ys =>
              match crop_axis ranges 0 sx with
              | Raise e => Raise e
              | Return xs => Return (length zs * length ys * length xs)%nat
              end
          end
      end
  end.

(** *** What a loop that writes [mask_value] does

    [f] needs [ok] of the size of the image; then it returns the image
    with the pixels of [area] set to [mask_value] and the others as they
    were; otherwise it raises an IndexError. *)
Definition painter (f : image -> result image) (ok : nat * nat * nat -> bool)
    (area : nat -> nat -> nat -> bool) : Prop :=
  forall m : image,
    (ok (size m) = true ->
     exists m', f m = Return m' /\ size m' = size m /\
       forall x y z, pixel m' x y z
                     = if area x y z then mask_value else pixel m x y z) /\
    (ok (size m) = false -> f m = Raise "IndexError").

(** The box of three ranges, and whether it fits an image size. *)
Definition in_box (r0 r1 r2 : list nat) (x y z : nat) : bool :=
  existsb (Nat.eqb x) r0 && existsb (Nat.eqb y) r1 && existsb (Nat.eqb z) r2.

Definition box_fits (r0 r1 r2 : list nat) (sz : nat * nat * nat) : bool :=
  let '(sx, sy, sz) := sz in
  forallb (fun x =>
    forallb (fun y =>
      forallb (fun z => (x <? sx) && (y <? sy) && (z <? sz))%nat r2) r1) r0.

End Roi.

(** ** Part II: the orientation search *)

Section SearchFacts.

Import Registration.

Variable metric_value : nat -> Euler3DTransform -> R.
Variables geometry_translation geometry_center : vector3.

Abbreviation t0 :=
  (CenteredTransformInitializer geometry_translation geometry_center
     Euler3DTransform_default).
Abbreviation loop :=
  (search_loop metric_value geometry_translation geometry_center).
Abbreviation step := (search_step metric_value).

Lemma SetRotation_frame (t t' : Euler3DTransform) (a : angles) :
  translation t = translation t' -> center t = center t' ->
  SetRotation t a = SetRotation t' a.
Proof. intros Ht Hc. unfold SetRotation. now rewrite Ht, Hc. Qed.

Lemma search_loop_snoc (catalogue : list (string * angles)) (item : string * angles) :
  loop (catalogue ++ [item]) = step (loop catalogue) item.
Proof. unfold search_loop. now rewrite fold_left_app. Qed.

Lemma search_step_frame (st : search_state) (item : string * angles) :
  translation (initial_transform (step st item)) = translation (initial_transform st) /\
  center (initial_transform (step st item)) = center (initial_transform st) /\
  method_transform (step st item) = initial_transform (step st item).
Proof.
  unfold search_step, MetricEvaluate; simpl.
  destruct (Rlt_dec _ _); simpl; auto.
Qed.

Lemma search_loop_frame (catalogue : list (string * angles)) :
  translation (initial_transform (loop catalogue)) = geometry_translation /\
  center (initial_transform (loop catalogue)) = geometry_center.
Proof.
  induction catalogue as [|item catalogue IH] using rev_ind.
  - split; reflexivity.
  - rewrite search_loop_snoc.
    destruct (search_step_frame (loop catalogue) item) as (Ht & Hc & _).
    rewrite Ht, Hc. exact IH.
Qed.

Lemma search_step_log (st : search_state) (item : string * angles) :
  let t := SetRotation (initial_transform st) (snd item) in
  evaluations (step st item)
  = evaluations st ++ [(t, metric_value (length (evaluations st)) t)].
Proof.
  unfold search_step, MetricEvaluate; simpl.
  destruct (Rlt_dec _ _); reflexivity.
Qed.

Lemma search_loop_log_length (catalogue : list (string * angles)) :
  length (evaluations (loop catalogue)) = S (length catalogue).
Proof.
  induction catalogue as [|item catalogue IH] using rev_ind.
  - reflexivity.
  - rewrite search_loop_snoc, search_step_log; simpl.
    rewrite !length_app, IH; simpl. lia.
Qed.

(** The loop in closed form: what one more catalogue entry does. *)
Lemma search_loop_step (catalogue : list (string * angles)) (key : string)
    (orientation : angles) :
  let st := loop catalogue in
  let t := SetRotation t0 orientation in
  let v := metric_value (S (length catalogue)) t in
  loop (catalogue ++ [(key, orientation)])
  = if Rlt_dec v (best_similarity_value st) then
      {| initial_transform := t; method_transform := t;
         best_orientation := orientation;
         best_similarity_value := v;
         evaluations := evaluations st ++ [(t, v)] |}
    else
      {| initial_transform := t; method_transform := t;
         best_orientation := best_orientation st;
         best_similarity_value := best_similarity_value st;
         evaluations := evaluations st ++ [(t, v)] |}.
Proof.
  intros st t v. rewrite search_loop_snoc.
  unfold search_step, MetricEvaluate; simpl.
  fold st.
  assert (Ht : SetRotation (initial_transform st) orientation = t).
  { destruct (search_loop_frame catalogue) as (H1 & H2).
    apply SetRotation_frame; [exact H1 | exact H2]. }
  assert (Hn : length (evaluations st) = S (length catalogue))
    by apply search_loop_log_length.
  rewrite Ht, Hn. fold v.
  destruct (Rlt_dec v (best_similarity_value st)); reflexivity.
Qed.

Lemma search_step_le (st : search_state) (item : string * angles) :
  best_similarity_value (step st item) <= best_similarity_value st.
Proof.
  unfold search_step, MetricEvaluate; simpl.
  destruct (Rlt_dec _ _); simpl; lra.
Qed.

Lemma search_loop_app_le (done rest : list (string * angles)) :
  best_similarity_value (loop (done ++ rest)) <= best_similarity_value (loop done).
Proof.
  induction rest as [|item rest IH] using rev_ind.
  - rewrite app_nil_r. lra.
  - rewrite app_assoc, search_loop_snoc.
    pose proof (search_step_le (loop (done ++ rest)) item). lra.
Qed.

(** The orientations in evaluation order: the identity, then the
    catalogue. *)
Lemma evaluated_orientations_snoc (catalogue : list (string * angles))
    (key : string) (orientation : angles) :
  (0, 0, 0) :: map snd (catalogue ++ [(key, orientation)])
  = ((0, 0, 0) :: map snd catalogue) ++ [orientation].
Proof. now rewrite map_app. Qed.

(** The running best is the first minimum of the values seen so far. *)
Lemma search_loop_first_min (catalogue : list (string * angles)) :
  let st := loop catalogue in
  let orientations := (0, 0, 0) :: map snd catalogue in
  let values := map snd (evaluations st) in
  exists i : nat,
    orientations !! i = Some (best_orientation st) /\
    values !! i = Some (best_similarity_value st) /\
    (forall j v, values !! j = Some v -> best_similarity_value st <= v) /\
    (forall j v, (j < i)%nat -> values !! j = Some v ->
                 best_similarity_value st < v).
Proof.
  induction catalogue as [|[key orientation] catalogue IH] using rev_ind.
  - exists 0%nat. simpl. repeat split.
    + intros [|j] v Hj; simpl in Hj; [inversion Hj; lra | discriminate].
    + intros j v Hlt; lia.
  - cbv zeta in IH. destruct IH as (i & Ho & Hv & Hle & Hlt).
    pose proof (search_loop_log_length catalogue) as Hlen.
    assert (Hi : (i < S (length catalogue))%nat).
    { apply lookup_lt_Some in Hv. rewrite length_map in Hv. lia. }
    cbv zeta. rewrite evaluated_orientations_snoc, search_loop_step.
    set (st := loop catalogue) in *.
    set (t := SetRotation t0 orientation).
    set (v := metric_value (S (length catalogue)) t).
    assert (Hvals : forall log : list (Euler3DTransform * R),
               map snd (log ++ [(t, v)]) = map snd log ++ [v])
      by (intros; now rewrite map_app).
    assert (Hlv : length (map snd (evaluations st)) = S (length catalogue))
      by (now rewrite length_map).
    assert (Hlo : length ((0, 0, 0) :: map snd catalogue) = S (length catalogue))
      by (simpl; now rewrite length_map).
    destruct (Rlt_dec v (best_similarity_value st)) as [Hbetter|Hworse];
      cbn [evaluations best_orientation best_similarity_value];
      rewrite Hvals.
    + exists (S (length catalogue)). repeat split.
      * rewrite lookup_app_r by (simpl; rewrite ?length_map; lia). simpl length; rewrite length_map, Nat.sub_diag. reflexivity.
      * rewrite lookup_app_r by (simpl; rewrite ?length_map; lia). rewrite length_map, Hlen, Nat.sub_diag. reflexivity.
      * intros j w Hj.
        destruct (Nat.lt_ge_cases j (S (length catalogue))) as [Hs|Hs].
        -- rewrite lookup_app_l in Hj by (simpl; rewrite ?length_map; lia).
           specialize (Hle j w Hj). lra.
        -- rewrite lookup_app_r in Hj by (simpl; rewrite ?length_map; lia). rewrite length_map, Hlen in Hj.
           destruct (j - S (length catalogue))%nat; simpl in Hj;
             [inversion Hj; lra | discriminate].
      * intros j w Hs Hj. rewrite lookup_app_l in Hj by (simpl; rewrite ?length_map; lia).
        specialize (Hle j w Hj). lra.
    + exists i. repeat split.
      * rewrite lookup_app_l by (simpl; rewrite ?length_map; lia). exact Ho.
      * rewrite lookup_app_l by (simpl; rewrite ?length_map; lia). exact Hv.
      * intros j w Hj.
        destruct (Nat.lt_ge_cases j (S (length catalogue))) as [Hs|Hs].
        -- rewrite lookup_app_l in Hj by (simpl; rewrite ?length_map; lia). exact (Hle j w Hj).
        -- rewrite lookup_app_r in Hj by (simpl; rewrite ?length_map; lia). rewrite length_map, Hlen in Hj.
           destruct (j - S (length catalogue))%nat; simpl in Hj;
             [inversion Hj; lra | discriminate].
      * intros j w Hs Hj. rewrite lookup_app_l in Hj by (simpl; rewrite ?length_map; lia).
        exact (Hlt j w Hs Hj).
Qed.

(** Every transform MetricEvaluate sees is the initial one with only its
    rotation replaced. *)
Lemma search_loop_log_frame (catalogue : list (string * angles)) :
  Forall (fun e : Euler3DTransform * R =>
            translation (fst e) = geometry_translation /\
            center (fst e) = geometry_center)
         (evaluations (loop catalogue)).
Proof.
  induction catalogue as [|[key orientation] catalogue IH] using rev_ind.
  - repeat constructor.
  - rewrite search_loop_step.
    destruct (Rlt_dec _ _); simpl; apply Forall_app; split; auto;
      repeat constructor.
Qed.

(** The log in closed form: the k-th call is at the initial transform
    with the rotation of the k-th orientation. *)
Lemma search_loop_log_transforms (catalogue : list (string * angles)) :
  map fst (evaluations (loop catalogue))
  = t0 :: map (fun item => SetRotation t0 (snd item)) catalogue.
Proof.
  induction catalogue as [|[key orientation] catalogue IH] using rev_ind.
  - reflexivity.
  - rewrite search_loop_step.
    destruct (Rlt_dec _ _); simpl; rewrite !map_app, IH; reflexivity.
Qed.

End SearchFacts.

Section SearchClaims.

Import Registration.

Variable metric_value : nat -> Euler3DTransform -> R.
Variables geometry_translation geometry_center : vector3.

Abbreviation t0 :=
  (CenteredTransformInitializer geometry_translation geometry_center
     Euler3DTransform_default).
Abbreviation loop :=
  (search_loop metric_value geometry_translation geometry_center).
Abbreviation search :=
  (orientation_search metric_value geometry_translation geometry_center).

(** C1.  The search first evaluates the metric at the identity rotation
    and seeds the running best with it; then every catalogue entry, in
    catalogue order, is evaluated once, and it replaces the best value
    and the best orientation exactly when its value is strictly less than
    the running best; the search returns the transform with the winning
    rotation, the winning triple and its value.  In the scenario with
    values 0.8 (identity), 0.3, 0.9, 0.5 for the catalogue
    (0,0,pi/2), (pi,0,0), (pi,0,pi/2) the first candidate wins with 0.3. *)
Theorem orientation_search_spec :
  (rotation t0 = (0, 0, 0) /\
   loop [] = {| initial_transform := t0; method_transform := t0;
                best_orientation := (0, 0, 0);
                best_similarity_value := metric_value 0 t0;
                evaluations := [(t0, metric_value 0 t0)] |}) /\
  (forall catalogue key orientation,
     let st := loop catalogue in
     let st' := loop (catalogue ++ [(key, orientation)]) in
     let t := SetRotation t0 orientation in
     let v := metric_value (S (length catalogue)) t in
     evaluations st' = evaluations st ++ [(t, v)] /\
     (v < best_similarity_value st ->
      best_orientation st' = orientation /\ best_similarity_value st' = v) /\
     (~ v < best_similarity_value st ->
      best_orientation st' = best_orientation st /\
      best_similarity_value st' = best_similarity_value st)) /\
  (forall catalogue,
     search catalogue
     = (SetRotation t0 (best_orientation (loop catalogue)),
        best_orientation (loop catalogue),
        best_similarity_value (loop catalogue))) /\
  (forall key1 key2 key3,
     metric_value 0 t0 = 0.8 ->
     metric_value 1 (SetRotation t0 (0, 0, PI / 2)) = 0.3 ->
     metric_value 2 (SetRotation t0 (PI, 0, 0)) = 0.9 ->
     metric_value 3 (SetRotation t0 (PI, 0, PI / 2)) = 0.5 ->
     search [ (key1, (0, 0, PI / 2)); (key2, (PI, 0, 0)); (key3, (PI, 0, PI / 2)) ]
     = (SetRotation t0 (0, 0, PI / 2), (0, 0, PI / 2), 0.3)).
Proof.
  assert (Hret : forall catalogue,
             search catalogue
             = (SetRotation t0 (best_orientation (loop catalogue)),
                best_orientation (loop catalogue),
                best_similarity_value (loop catalogue))).
  { intros catalogue. unfold orientation_search.
    destruct (search_loop_frame metric_value geometry_translation
                geometry_center catalogue) as (Ht & Hc).
    f_equal. f_equal. apply SetRotation_frame; [exact Ht | exact Hc]. }
  split; [split; reflexivity|].
  split; [|split; [exact Hret|]].
  - intros catalogue key orientation st st' t v.
    unfold st'. rewrite search_loop_step. fold st t v.
    destruct (Rlt_dec v (best_similarity_value st)) as [Hlt|Hge]; simpl;
      repeat split; auto; intros; contradiction.
  - intros key1 key2 key3 H0 H1 H2 H3.
    rewrite Hret.
    assert (S1 : loop [(key1, (0, 0, PI / 2))]
                 = {| initial_transform := SetRotation t0 (0, 0, PI / 2);
                      method_transform := SetRotation t0 (0, 0, PI / 2);
                      best_orientation := (0, 0, PI / 2);
                      best_similarity_value := 0.3;
                      evaluations := [(t0, 0.8); (SetRotation t0 (0, 0, PI / 2), 0.3)] |}).
    { change [(key1, (0, 0, PI / 2))] with ([] ++ [(key1, (0, 0, PI / 2))]).
      rewrite search_loop_step. cbv zeta.
      change (loop []) with
        {| initial_transform := t0; method_transform := t0;
           best_orientation := (0, 0, 0);
           best_similarity_value := metric_value 0 t0;
           evaluations := [(t0, metric_value 0 t0)] |}.
      cbn [best_similarity_value best_orientation evaluations length].
      rewrite H0, H1.
      destruct (Rlt_dec 0.3 0.8); [reflexivity | lra]. }
    assert (S2 : loop [(key1, (0, 0, PI / 2)); (key2, (PI, 0, 0))]
                 = {| initial_transform := SetRotation t0 (PI, 0, 0);
                      method_transform := SetRotation t0 (PI, 0, 0);
                      best_orientation := (0, 0, PI / 2);
                      best_similarity_value := 0.3;
                      evaluations := [(t0, 0.8); (SetRotation t0 (0, 0, PI / 2), 0.3);
                                      (SetRotation t0 (PI, 0, 0), 0.9)] |}).
    { change [(key1, (0, 0, PI / 2)); (key2, (PI, 0, 0))]
        with ([(key1, (0, 0, PI / 2))] ++ [(key2, (PI, 0, 0))]).
      rewrite search_loop_step. cbv zeta. rewrite S1.
      cbn [best_similarity_value best_orientation evaluations length].
      rewrite H2.
      destruct (Rlt_dec 0.9 0.3); [lra | reflexivity]. }
    change [(key1, (0, 0, PI / 2)); (key2, (PI, 0, 0)); (key3, (PI, 0, PI / 2))]
      with ([(key1, (0, 0, PI / 2)); (key2, (PI, 0, 0))] ++ [(key3, (PI, 0, PI / 2))]).
    rewrite search_loop_step. cbv zeta. rewrite S2.
    cbn [best_similarity_value best_orientation evaluations length].
    rewrite H3.
    destruct (Rlt_dec 0.5 0.3); [lra | reflexivity].
Qed.

(** C6.  The running best value starts at the identity's value and never
    increases while the catalogue is walked, so the value the search
    returns is never greater than the identity's, for every catalogue
    (empty or not) and every evaluator. *)
Theorem search_best_never_increases :
  let search_loop := search_loop metric_value geometry_translation geometry_center in
  let orientation_search :=
    orientation_search metric_value geometry_translation geometry_center in
  best_similarity_value (search_loop []) = metric_value 0 t0 /\
  (forall done rest,
     best_similarity_value (search_loop (done ++ rest))
     <= best_similarity_value (search_loop done)) /\
  (forall catalogue, snd (orientation_search catalogue) <= metric_value 0 t0).
Proof.
  cbv zeta.
  split; [reflexivity|]. split.
  - apply search_loop_app_le.
  - intros catalogue. unfold orientation_search; simpl.
    exact (search_loop_app_le metric_value geometry_translation
             geometry_center [] catalogue).
Qed.

(** C7.  The returned winner is the first evaluation, in evaluation order
    (identity, then the catalogue), that reaches the smallest value: no
    evaluation has a smaller value, and every evaluation with exactly the
    winning value comes at or after the winner.  So of two evaluations
    with exactly equal values the later one is never the winner: on an
    exact tie for the best value the earlier candidate is returned. *)
Theorem search_first_seen_wins (catalogue : list (string * angles)) :
  let orientations := (0, 0, 0) :: map snd catalogue in
  let values := map snd (evaluations (loop catalogue)) in
  let '(_, winner, score) := search catalogue in
  map fst (evaluations (loop catalogue)) = map (SetRotation t0) orientations /\
  exists i : nat,
    orientations !! i = Some winner /\
    values !! i = Some score /\
    (forall j v, values !! j = Some v -> score <= v) /\
    (forall j v, values !! j = Some v -> v = score -> (i <= j)%nat) /\
    (forall j j' v, (j < j')%nat ->
       values !! j = Some v -> values !! j' = Some v -> i <> j').
Proof.
  unfold orientation_search. cbv zeta.
  split.
  - rewrite search_loop_log_transforms. cbn [map]. rewrite map_map. reflexivity.
  - destruct (search_loop_first_min metric_value geometry_translation
                geometry_center catalogue) as (i & Ho & Hv & Hle & Hlt).
    exists i. repeat split; auto.
    + intros j v Hj Heq.
      destruct (Nat.lt_ge_cases j i) as [Hji|Hij]; [|exact Hij].
      specialize (Hlt j v Hji Hj). lra.
    + intros j j' v Hjj' Hj Hj' Heq. subst j'.
      specialize (Hlt j v Hjj' Hj).
      rewrite Hv in Hj'. inversion Hj'. lra.
Qed.

(** C9.  Every transform the metric is evaluated at is the initial
    transform with only its rotation replaced by the candidate's: its
    translation (and centre) are the ones the initialiser computed; and
    the transform returned carries that same translation, with the
    winning rotation. *)
Theorem search_keeps_translation (catalogue : list (string * angles)) :
  map fst (evaluations (loop catalogue))
  = t0 :: map (fun item => SetRotation t0 (snd item)) catalogue /\
  Forall (fun e : Euler3DTransform * R =>
            translation (fst e) = translation t0 /\ center (fst e) = center t0)
         (evaluations (loop catalogue)) /\
  let '(final_transform, winner, _) := search catalogue in
  translation final_transform = translation t0 /\
  center final_transform = center t0 /\
  rotation final_transform = winner.
Proof.
  split; [apply search_loop_log_transforms|].
  split; [apply search_loop_log_frame|].
  unfold orientation_search; simpl.
  destruct (search_loop_frame metric_value geometry_translation
              geometry_center catalogue) as (Ht & Hc).
  auto.
Qed.

End SearchClaims.

(** ** Part III: the catalogue and the rotations it stands for *)

Section CatalogueFacts.

Import Registration.

Lemma cos_minus_PI : cos (- PI) = -1.
Proof. rewrite cos_neg. apply cos_PI. Qed.

Lemma sin_minus_PI : sin (- PI) = 0.
Proof. rewrite sin_neg, sin_PI. lra. Qed.

Lemma cos_minus_PI2 : cos (- PI / 2) = 0.
Proof.
  replace (- PI / 2) with (- (PI / 2)) by lra.
  rewrite cos_neg. apply cos_PI2.
Qed.

Lemma sin_minus_PI2 : sin (- PI / 2) = -1.
Proof.
  replace (- PI / 2) with (- (PI / 2)) by lra.
  rewrite sin_neg, sin_PI2. reflexivity.
Qed.

Lemma rotation_matrix_entry_10 (ax az : R) :
  entry 1 0 (rotation_matrix (ax, 0, az)) = sin az.
Proof.
  cbv [entry rotation_matrix mat_mul RotationX RotationY RotationZ column
       dot sum_R map seq nth combine fold_right fst snd].
  rewrite cos_0, sin_0. ring.
Qed.

Lemma rotation_matrix_entry_22 (ax az : R) :
  entry 2 2 (rotation_matrix (ax, 0, az)) = cos ax.
Proof.
  cbv [entry rotation_matrix mat_mul RotationX RotationY RotationZ column
       dot sum_R map seq nth combine fold_right fst snd].
  rewrite cos_0, sin_0. ring.
Qed.

Lemma rotation_matrix_about_z (az : R) :
  rotation_matrix (0, 0, az) = RotationZ az.
Proof.
  cbv [rotation_matrix mat_mul RotationX RotationY RotationZ column
       dot sum_R map seq nth combine fold_right fst snd].
  rewrite cos_0, sin_0.
  repeat (f_equal; try ring).
Qed.

End CatalogueFacts.

Create Rewrite HintDb trig_values.
#[local] Hint Rewrite cos_0 sin_0 cos_PI sin_PI cos_PI2 sin_PI2
  cos_minus_PI sin_minus_PI cos_minus_PI2 sin_minus_PI2 : trig_values.

Section CatalogueClaims.

Import Registration.

(** C10.  The entry keyed 'x=0, y=0, z=-90' holds (0,0,-pi), not
    (0,0,-pi/2).  So the catalogue holds the two distinct triples
    (0,0,-pi) and (0,0,pi), which stand for the same rotation, and none
    of the evaluated orientations (identity and catalogue) is the
    rotation by -90 degrees about z. *)
Theorem catalogue_minus_90_is_minus_180 :
  dict_get "x=0, y=0, z=-90" all_orientations = Some (0, 0, - PI) /\
  (0, 0, - PI) <> ((0, 0, - PI / 2) : angles) /\
  (In (0, 0, - PI) (map snd all_orientations) /\
   In (0, 0, PI) (map snd all_orientations) /\
   (0, 0, - PI) <> ((0, 0, PI) : angles) /\
   rotation_matrix (0, 0, - PI) = rotation_matrix (0, 0, PI)) /\
  (forall a : angles,
     In a ((0, 0, 0) :: map snd all_orientations) ->
     a <> (0, 0, - PI / 2) /\
     rotation_matrix a <> rotation_matrix (0, 0, - PI / 2)).
Proof.
  pose proof PI_RGT_0 as Hpi.
  split; [reflexivity|].
  split; [intros H; inversion H; lra|].
  split.
  - split; [simpl; tauto|]. split; [simpl; tauto|].
    split; [intros H; inversion H; lra|].
    rewrite !rotation_matrix_about_z. unfold RotationZ.
    autorewrite with trig_values. repeat (f_equal; try lra).
  - intros a Ha.
    assert (Hm : rotation_matrix a <> rotation_matrix (0, 0, - PI / 2)).
    { intros Heq.
      pose proof (f_equal (entry 1 0) Heq) as H10.
      pose proof (f_equal (entry 2 2) Heq) as H22.
      simpl in Ha.
      repeat (destruct Ha as [Ha|Ha]; [subst a|]); try contradiction;
        rewrite !rotation_matrix_entry_10 in H10;
        rewrite !rotation_matrix_entry_22 in H22;
        autorewrite with trig_values in H10, H22; lra. }
    split; [|exact Hm].
    intros Heq. apply Hm. now rewrite Heq.
Qed.

End CatalogueClaims.

(** ** Part IV: the two search strategies side by side *)

Section StrategyFacts.

Import Registration.

(** The metric as a fixed surface over the transforms: every call at the
    same transform returns the same value. *)
Variable surface : Euler3DTransform -> R.
Variables geometry_translation geometry_center : vector3.

Abbreviation t0 :=
  (CenteredTransformInitializer geometry_translation geometry_center
     Euler3DTransform_default).
Abbreviation loop :=
  (search_loop (fun _ => surface) geometry_translation geometry_center).

Lemma angles_eq_dec (a b : angles) : a = b \/ a <> b.
Proof.
  destruct a as [[ax ay] az], b as [[bx by'] bz].
  destruct (Req_dec ax bx) as [Hx|Hx]; [|right; congruence].
  destruct (Req_dec ay by') as [Hy|Hy]; [|right; congruence].
  destruct (Req_dec az bz) as [Hz|Hz]; [|right; congruence].
  left; congruence.
Qed.

(** With a fixed surface the running best of the catalogue loop is a
    minimum of the surface over the orientations evaluated. *)
Lemma search_loop_argmin (catalogue : list (string * angles)) :
  let st := loop catalogue in
  In (best_orientation st) ((0, 0, 0) :: map snd catalogue) /\
  best_similarity_value st = surface (SetRotation t0 (best_orientation st)) /\
  (forall o, In o ((0, 0, 0) :: map snd catalogue) ->
             best_similarity_value st <= surface (SetRotation t0 o)).
Proof.
  induction catalogue as [|[key orientation] catalogue IH] using rev_ind.
  - simpl. split; [tauto|]. split; [reflexivity|].
    intros o [<-|[]]. apply Rle_refl.
  - cbv zeta in IH. destruct IH as (Hin & Hval & Hmin).
    cbv zeta. rewrite evaluated_orientations_snoc, search_loop_step.
    destruct (Rlt_dec _ _) as [Hlt|Hge];
      cbn [best_orientation best_similarity_value].
    + split; [apply in_or_app; right; left; reflexivity|].
      split; [reflexivity|].
      intros o Ho. apply in_app_or in Ho. destruct Ho as [Ho|[<-|[]]].
      * specialize (Hmin o Ho). lra.
      * apply Rle_refl.
    + split; [apply in_or_app; left; exact Hin|].
      split; [exact Hval|].
      intros o Ho. apply in_app_or in Ho. destruct Ho as [Ho|[<-|[]]].
      * exact (Hmin o Ho).
      * lra.
Qed.

Lemma SetParameters_GetParameters (t : Euler3DTransform) :
  SetParameters t (GetParameters t) = t.
Proof. destruct t as [[[ax ay] az] [[tx ty] tz] c]. reflexivity. Qed.

(** The exhaustive walk ends on the initial position or on a vertex, one
    where the surface is least among them. *)
Lemma exhaustive_walk_argmin (t : Euler3DTransform) (vertices : list (list R)) :
  let st := snd (exhaustive_walk (fun _ => surface) t vertices) in
  (fst (minimum st) = GetParameters t \/ In (fst (minimum st)) vertices) /\
  snd (minimum st) = surface (SetParameters t (fst (minimum st))) /\
  snd (minimum st) <= surface t /\
  (forall q, In q vertices ->
             snd (minimum st) <= surface (SetParameters t q)).
Proof.
  unfold exhaustive_walk, MetricEvaluate. cbn [snd].
  induction vertices as [|q vertices IH] using rev_ind.
  - cbn [fold_left minimum fst snd].
    rewrite SetParameters_GetParameters.
    split; [left; reflexivity|]. split; [reflexivity|].
    split; [apply Rle_refl|]. intros q [].
  - cbv zeta in *. rewrite fold_left_app. cbn [fold_left].
    set (st := fold_left _ vertices _) in *.
    destruct IH as (Hin & Hval & Hle0 & Hle).
    unfold exhaustive_visit, MetricEvaluate.
    destruct (Rlt_dec _ _) as [Hlt|Hge]; cbn [minimum fst snd].
    + split; [right; apply in_or_app; right; left; reflexivity|].
      split; [reflexivity|]. split; [lra|].
      intros q' Hq'. apply in_app_or in Hq'. destruct Hq' as [Hq'|[<-|[]]].
      * specialize (Hle q' Hq'). lra.
      * apply Rle_refl.
    + split; [destruct Hin as [Hin|Hin];
              [left; exact Hin | right; apply in_or_app; left; exact Hin]|].
      split; [exact Hval|]. split; [exact Hle0|].
      intros q' Hq'. apply in_app_or in Hq'. destruct Hq' as [Hq'|[<-|[]]].
      * exact (Hle q' Hq').
      * lra.
Qed.

(** The vertices the optimizer walks, spelled out:
    angle_x = -pi, 0, pi; angle_y = 0; angle_z = -pi, -pi/2, 0, pi/2, pi,
    the translation untouched; 15 in all. *)
Lemma exhaustive_grid_vertices (tx ty tz : R) (c : vector3) :
  exhaustive_grid
    {| rotation := (0, 0, 0); translation := (tx, ty, tz); center := c |}
  = map (fun xz : R * R => [fst xz; 0; snd xz; tx; ty; tz])
      [ (- PI, - PI);     (0, - PI);     (PI, - PI);
        (- PI, - PI / 2); (0, - PI / 2); (PI, - PI / 2);
        (- PI, 0);        (0, 0);        (PI, 0);
        (- PI, PI / 2);   (0, PI / 2);   (PI, PI / 2);
        (- PI, PI);       (0, PI);       (PI, PI) ].
Proof.
  unfold exhaustive_grid, GetParameters.
  cbn [rotation translation grid_axes axis_values grid_points map seq
       flat_map app Nat.mul Nat.add INR fst snd].
  repeat (f_equal; try lra).
Qed.

(** 15 vertices for the exhaustive walk, 8 evaluations by the
    MetricEvaluate loop. *)
Lemma evaluation_counts :
  length (exhaustive_grid t0) = 15%nat /\
  length (evaluations (loop all_orientations)) = 8%nat.
Proof.
  split.
  - destruct geometry_translation as [[tx ty] tz].
    unfold CenteredTransformInitializer, Euler3DTransform_default.
    cbn [rotation]. rewrite exhaustive_grid_vertices. reflexivity.
  - apply search_loop_log_length.
Qed.

(** Every evaluated orientation (identity or catalogue entry) is a vertex
    of the grid. *)
Lemma catalogue_on_grid (o : angles) :
  In o ((0, 0, 0) :: map snd all_orientations) ->
  exists p, In p (exhaustive_grid t0) /\ SetParameters t0 p = SetRotation t0 o.
Proof.
  destruct geometry_translation as [[tx ty] tz] eqn:Hgt.
  intros Ho.
  assert (Hgrid := exhaustive_grid_vertices tx ty tz geometry_center).
  unfold CenteredTransformInitializer, Euler3DTransform_default.
  cbn [rotation]. rewrite Hgrid.
  destruct o as [[ox oy] oz].
  exists [ox; oy; oz; tx; ty; tz]. split; [|reflexivity].
  simpl in Ho.
  repeat (destruct Ho as [Ho|Ho]; [inversion Ho; subst; simpl; tauto|]).
  contradiction.
Qed.

(** When no catalogue entry is strictly better than the identity, the
    identity is kept. *)
Lemma search_identity_kept (catalogue : list (string * angles)) :
  (forall o, In o (map snd catalogue) ->
             surface t0 <= surface (SetRotation t0 o)) ->
  best_orientation (loop catalogue) = (0, 0, 0) /\
  best_similarity_value (loop catalogue) = surface t0.
Proof.
  induction catalogue as [|[key orientation] catalogue IH] using rev_ind.
  - intros _. split; reflexivity.
  - intros Hall. rewrite map_app in Hall.
    destruct IH as (Hb & Hv).
    { intros o Ho. apply Hall. apply in_or_app. now left. }
    rewrite search_loop_step. rewrite Hv.
    assert (Hge : surface t0 <= surface (SetRotation t0 orientation)).
    { apply Hall. apply in_or_app. right. left. reflexivity. }
    destruct (Rlt_dec _ _) as [Hlt|_]; [lra|].
    cbn [best_orientation best_similarity_value]. split; [exact Hb | reflexivity].
Qed.

Lemma matrix3_eq_dec (m m' : matrix3) : m = m' \/ m <> m'.
Proof.
  destruct (List.list_eq_dec (List.list_eq_dec Req_EM_T) m m');
    [left | right]; assumption.
Qed.

(** The rotation for the angles (ax, 0, az). *)
Lemma rotation_matrix_y0 (ax az : R) :
  rotation_matrix (ax, 0, az)
  = [ [cos az; - sin az * cos ax; sin az * sin ax];
      [sin az; cos az * cos ax; - cos az * sin ax];
      [0; sin ax; cos ax] ].
Proof.
  cbv [rotation_matrix mat_mul RotationX RotationY RotationZ column
       dot sum_R map seq nth combine fold_right fst snd].
  rewrite cos_0, sin_0.
  repeat (f_equal; try ring).
Qed.

(** The 15 vertices of the grid stand for 8 rotations: the 7 that the
    loop tries (identity and dictionary), and the rotation by -90 degrees
    about z. *)
Lemma grid_rotation_tried_or_minus_90 (p : list R) :
  In p (exhaustive_grid t0) ->
  rotation_matrix (rotation (SetParameters t0 p)) = rotation_matrix (0, 0, - PI / 2) \/
  exists o, In o ((0, 0, 0) :: map snd all_orientations) /\
            rotation_matrix (rotation (SetParameters t0 p)) = rotation_matrix o.
Proof.
  destruct geometry_translation as [[tx ty] tz] eqn:Hgt.
  assert (Hgrid := exhaustive_grid_vertices tx ty tz geometry_center).
  unfold CenteredTransformInitializer, Euler3DTransform_default.
  cbn [rotation]. rewrite Hgrid. intros Hp.
  pose proof PI_RGT_0 as Hpi.
  assert (Htried : forall x z o,
             In o ((0, 0, 0) :: map snd all_orientations) ->
             rotation_matrix (x, 0, z) = rotation_matrix o ->
             rotation_matrix (x, 0, z) = rotation_matrix (0, 0, - PI / 2) \/
             exists o, In o ((0, 0, 0) :: map snd all_orientations) /\
                       rotation_matrix (x, 0, z) = rotation_matrix o)
    by (intros x z o Ho Heq; right; exists o; split; assumption).
  cbn [map fst snd In] in Hp.
  destruct Hp as [<-|Hp];
    [apply (Htried _ _ (PI, 0, PI)); [simpl; tauto|];
     rewrite !rotation_matrix_y0; autorewrite with trig_values;
     repeat (f_equal; try lra)|].
  destruct Hp as [<-|Hp];
    [apply (Htried _ _ (0, 0, PI)); [simpl; tauto|];
     rewrite !rotation_matrix_y0; autorewrite with trig_values;
     repeat (f_equal; try lra)|].
  destruct Hp as [<-|Hp];
    [apply (Htried _ _ (PI, 0, PI)); [simpl; tauto|];
     rewrite !rotation_matrix_y0; autorewrite with trig_values;
     repeat (f_equal; try lra)|].
  destruct Hp as [<-|Hp];
    [apply (Htried _ _ (PI, 0, - PI / 2)); [simpl; tauto|];
     rewrite !rotation_matrix_y0; autorewrite with trig_values;
     repeat (f_equal; try lra)|].
  destruct Hp as [<-|Hp]; [left; reflexivity|].
  destruct Hp as [<-|Hp];
    [apply (Htried _ _ (PI, 0, - PI / 2)); [simpl; tauto|reflexivity]|].
  destruct Hp as [<-|Hp];
    [apply (Htried _ _ (PI, 0, 0)); [simpl; tauto|];
     rewrite !rotation_matrix_y0; autorewrite with trig_values;
     repeat (f_equal; try lra)|].
  destruct Hp as [<-|Hp];
    [apply (Htried _ _ (0, 0, 0)); [simpl; tauto|reflexivity]|].
  destruct Hp as [<-|Hp];
    [apply (Htried _ _ (PI, 0, 0)); [simpl; tauto|reflexivity]|].
  destruct Hp as [<-|Hp];
    [apply (Htried _ _ (PI, 0, PI / 2)); [simpl; tauto|];
     rewrite !rotation_matrix_y0; autorewrite with trig_values;
     repeat (f_equal; try lra)|].
  destruct Hp as [<-|Hp];
    [apply (Htried _ _ (0, 0, PI / 2)); [simpl; tauto|reflexivity]|].
  destruct Hp as [<-|Hp];
    [apply (Htried _ _ (PI, 0, PI / 2)); [simpl; tauto|reflexivity]|].
  destruct Hp as [<-|Hp];
    [apply (Htried _ _ (PI, 0, PI)); [simpl; tauto|];
     rewrite !rotation_matrix_y0; autorewrite with trig_values;
     repeat (f_equal; try lra)|].
  destruct Hp as [<-|Hp];
    [apply (Htried _ _ (0, 0, PI)); [simpl; tauto|reflexivity]|].
  destruct Hp as [<-|Hp];
    [apply (Htried _ _ (PI, 0, PI)); [simpl; tauto|reflexivity]|].
  destruct Hp.
Qed.

(** When one rotation that the loop tries is strictly better than every
    other rotation of the grid, both strategies end on it, whatever the
    order of the items and of the vertices; the angles they end on may
    differ, the rotation does not. *)
Lemma strategies_agree_on_tried_rotation (catalogue : list (string * angles))
    (order : list (list R)) (winner : angles) :
  Permutation catalogue all_orientations ->
  Permutation order (exhaustive_grid t0) ->
  In winner ((0, 0, 0) :: map snd all_orientations) ->
  (forall p, In p (exhaustive_grid t0) ->
             rotation_matrix (rotation (SetParameters t0 p)) <> rotation_matrix winner ->
             surface (SetRotation t0 winner) < surface (SetParameters t0 p)) ->
  rotation_matrix (best_orientation (loop catalogue)) = rotation_matrix winner /\
  rotation_matrix (rotation (fst (exhaustive_walk (fun _ => surface) t0 order)))
  = rotation_matrix winner.
Proof.
  intros Hcat Hperm Hwin Huniq.
  assert (Hsame : Permutation ((0, 0, 0) :: map snd catalogue)
                              ((0, 0, 0) :: map snd all_orientations))
    by (apply perm_skip, Permutation_map, Hcat).
  destruct (catalogue_on_grid winner Hwin) as (pw & Hpw & Hpweq).
  split.
  - destruct (search_loop_argmin catalogue) as (Hin & Hval & Hmin).
    set (b := best_orientation _) in *.
    destruct (matrix3_eq_dec (rotation_matrix b) (rotation_matrix winner))
      as [Heq|Hne]; [exact Heq|exfalso].
    apply (Permutation_in _ Hsame) in Hin.
    destruct (catalogue_on_grid b Hin) as (p & Hp & Hpb).
    assert (Hrot : rotation_matrix (rotation (SetParameters t0 p))
                   <> rotation_matrix winner)
      by (rewrite Hpb; exact Hne).
    specialize (Huniq p Hp Hrot). rewrite Hpb in Huniq.
    specialize (Hmin winner (Permutation_in _ (Permutation_sym Hsame) Hwin)).
    lra.
  - pose proof (exhaustive_walk_argmin t0 order) as Hwalk.
    cbv zeta in Hwalk.
    unfold exhaustive_walk in *. unfold MetricEvaluate in *.
    cbn [fst snd] in *.
    set (st := fold_left _ order _) in *.
    destruct Hwalk as (Hin & Hval & _ & Hle).
    assert (Hp : exists p, In p (exhaustive_grid t0) /\
                           SetParameters t0 p = SetParameters t0 (fst (minimum st))).
    { destruct Hin as [Hin|Hin].
      - destruct (catalogue_on_grid (0, 0, 0) (or_introl eq_refl))
          as (p0 & Hp0 & Hp0eq).
        exists p0. split; [exact Hp0|].
        rewrite Hp0eq, Hin, SetParameters_GetParameters.
        destruct geometry_translation as [[tx ty] tz]. reflexivity.
      - exists (fst (minimum st)). split; [|reflexivity].
        apply (Permutation_in _ Hperm), Hin. }
    destruct Hp as (p & Hp & Hpeq).
    destruct (matrix3_eq_dec
                (rotation_matrix (rotation (SetParameters t0 (fst (minimum st)))))
                (rotation_matrix winner)) as [Heq|Hne]; [exact Heq|exfalso].
    rewrite <- Hpeq in Hne, Hval.
    specialize (Huniq p Hp Hne).
    specialize (Hle pw (Permutation_in _ (Permutation_sym Hperm) Hpw)).
    rewrite Hpweq in Hle. lra.
Qed.

End StrategyFacts.

Section StrategyClaims.

Import Registration.

Lemma matrix_surface_value (ax az : R) (tr c : vector3) :
  matrix_surface {| rotation := (ax, 0, az); translation := tr; center := c |}
  = sin az - cos ax.
Proof.
  unfold matrix_surface. cbn [rotation].
  rewrite rotation_matrix_entry_10, rotation_matrix_entry_22. reflexivity.
Qed.

(** C5.  The two strategies part on a metric that sees the rotation
    only and is least at the rotation by -90 degrees about z
    ([matrix_surface]: -2 there, at least -1 at every other rotation of
    the grid).  The dictionary entry keyed 'x=0, y=0, z=-90' holds
    (0,0,-pi), so that rotation is not among the orientations the
    MetricEvaluate loop tries, and the loop, in whatever order the
    dictionary yields its items, keeps the identity, with value -1.  The
    exhaustive search, in whatever order it visits the vertices of its
    grid, ends on (0,0,-pi/2), with value -2: a different rotation. *)
Theorem strategies_part_at_minus_90
    (geometry_translation geometry_center : vector3)
    (catalogue : list (string * angles)) (order : list (list R)) :
  let t0 := CenteredTransformInitializer geometry_translation geometry_center
              Euler3DTransform_default in
  Permutation catalogue all_orientations ->
  Permutation order (exhaustive_grid t0) ->
  let metric_evaluate :=
    orientation_search (fun _ => matrix_surface) geometry_translation
      geometry_center catalogue in
  let exhaustive := exhaustive_walk (fun _ => matrix_surface) t0 order in
  (forall t t', rotation_matrix (rotation t) = rotation_matrix (rotation t') ->
                matrix_surface t = matrix_surface t') /\
  dict_get "x=0, y=0, z=-90" all_orientations = Some (0, 0, - PI) /\
  snd (fst metric_evaluate) = (0, 0, 0) /\
  snd metric_evaluate = -1 /\
  rotation (fst exhaustive) = (0, 0, - PI / 2) /\
  matrix_surface (fst exhaustive) = -2 /\
  rotation_matrix (rotation (fst (fst metric_evaluate)))
  <> rotation_matrix (rotation (fst exhaustive)).
Proof.
  destruct geometry_translation as [[tx ty] tz].
  intros t0 Hcat Hperm metric_evaluate exhaustive.
  pose proof PI_RGT_0 as Hpi.
  assert (Ht0 : t0 = {| rotation := (0, 0, 0); translation := (tx, ty, tz);
                        center := geometry_center |}) by reflexivity.
  assert (Hcentre : matrix_surface t0 = -1).
  { rewrite Ht0, matrix_surface_value. autorewrite with trig_values. lra. }
  assert (Hloop : best_orientation
                    (search_loop (fun _ => matrix_surface) (tx, ty, tz)
                       geometry_center catalogue) = (0, 0, 0) /\
                  best_similarity_value
                    (search_loop (fun _ => matrix_surface) (tx, ty, tz)
                       geometry_center catalogue) = -1).
  { rewrite <- Hcentre. apply search_identity_kept.
    intros o Ho.
    apply (Permutation_in _ (Permutation_map snd Hcat)) in Ho.
    fold t0. rewrite Hcentre. rewrite Ht0. unfold SetRotation.
    cbn [translation center].
    simpl in Ho.
    repeat (destruct Ho as [Ho|Ho];
            [subst o; rewrite matrix_surface_value;
             autorewrite with trig_values; lra|]).
    contradiction. }
  destruct Hloop as (Hbest & Hvalue).
  assert (Hend : fst exhaustive
                 = {| rotation := (0, 0, - PI / 2); translation := (tx, ty, tz);
                      center := geometry_center |}).
  { unfold exhaustive.
    pose proof (exhaustive_walk_argmin matrix_surface t0 order) as Hwalk.
    cbv zeta in Hwalk.
    unfold exhaustive_walk in *. unfold MetricEvaluate in *.
    cbn [fst snd] in *.
    set (st := fold_left _ order _) in *.
    destruct Hwalk as (Hin & Hval & Hle0 & Hle).
    assert (Hgrid := exhaustive_grid_vertices tx ty tz geometry_center).
    rewrite <- Ht0 in Hgrid.
    assert (Hlow : snd (minimum st) <= -2).
    { specialize (Hle [0; 0; - PI / 2; tx; ty; tz]).
      rewrite Ht0 in Hle. cbn [SetParameters center] in Hle.
      rewrite matrix_surface_value in Hle.
      autorewrite with trig_values in Hle.
      replace (-2) with (-1 - 1) by lra. apply Hle.
      apply (Permutation_in _ (Permutation_sym Hperm)).
      rewrite Hgrid. simpl. tauto. }
    destruct Hin as [Hin|Hin].
    - rewrite Hin, SetParameters_GetParameters in Hval. lra.
    - apply (Permutation_in _ Hperm) in Hin. rewrite Hgrid in Hin.
      simpl in Hin.
      repeat (destruct Hin as [Hin|Hin];
              [rewrite <- Hin in Hval |- *;
               rewrite Ht0 in Hval |- *;
               cbn [SetParameters center] in Hval |- *;
               rewrite matrix_surface_value in Hval;
               autorewrite with trig_values in Hval;
               first [reflexivity | exfalso; lra]|]).
      contradiction. }
  split.
  { intros t t' Heq. unfold matrix_surface. rewrite Heq. reflexivity. }
  split; [reflexivity|].
  split; [exact Hbest|]. split; [exact Hvalue|].
  rewrite Hend. cbn [rotation].
  split; [reflexivity|].
  split.
  - rewrite matrix_surface_value. autorewrite with trig_values. lra.
  - unfold metric_evaluate, orientation_search. cbn [fst rotation SetRotation].
    rewrite Hbest. intros Heq.
    pose proof (f_equal (entry 1 0) Heq) as H10.
    rewrite !rotation_matrix_entry_10 in H10.
    autorewrite with trig_values in H10. lra.
Qed.

(** The dictionary in the order of its literal and the grid in the
    optimizer's own order, for images whose geometry gives a zero
    translation and centre. *)
Lemma strategies_part_at_minus_90_witness :
  let t0 := CenteredTransformInitializer (0, 0, 0) (0, 0, 0)
              Euler3DTransform_default in
  snd (fst (orientation_search (fun _ => matrix_surface) (0, 0, 0) (0, 0, 0)
              all_orientations)) = (0, 0, 0) /\
  rotation (fst (exhaustive_walk (fun _ => matrix_surface) t0
                   (exhaustive_grid t0))) = (0, 0, - PI / 2).
Proof.
  intros t0.
  pose proof (strategies_part_at_minus_90 (0, 0, 0) (0, 0, 0) all_orientations
                (exhaustive_grid t0) (Permutation_refl _) (Permutation_refl _))
    as H.
  cbv zeta in H. destruct H as (_ & _ & Hloop & _ & Hend & _).
  split; [exact Hloop | exact Hend].
Defined.

End StrategyClaims.

(** ** Part V: the sphere fit *)

Section SystemFacts.

Import SphereFit.

Lemma sum_squares_nonneg (v : list R) : 0 <= sum_R (map (fun x => x * x) v).
Proof.
  induction v as [|x v IH]; simpl; [lra|].
  pose proof (Rle_0_sqr x) as Hx. unfold Rsqr in Hx. lra.
Qed.

(** [linalg.norm(v)**2] is the sum of the squares. *)
Lemma norm_squared (v : list R) : norm v ^ 2 = sum_R (map (fun x => x * x) v).
Proof.
  unfold norm. rewrite <- Rsqr_pow2. apply Rsqr_sqrt, sum_squares_nonneg.
Qed.

Lemma enumerate_cons {A : Type} (k : nat) (x : A) (l : list A) :
  combine (seq k (S (length l))) (x :: l) = (k, x) :: combine (seq (S k) (length l)) l.
Proof. reflexivity. Qed.

(** The loop, started on rows [k..] still holding ones and zeros, fills
    them with the equations of the points. *)
Lemma fill_rows_from (points : list point) :
  forall (done_A : list (list R)) (done_b : list R),
    length done_b = length done_A ->
    fold_left fill_row
      (combine (seq (length done_A) (length points)) points)
      (done_A ++ ones (length points) 4, done_b ++ zeros (length points))
    = (done_A ++ map spec_row points, done_b ++ map spec_rhs points).
Proof.
  induction points as [|p points IH]; intros done_A done_b Hlen.
  - reflexivity.
  - cbn [length]. rewrite enumerate_cons. cbn [fold_left].
    unfold fill_row at 2.
    unfold ones, zeros. cbn [repeat].
    rewrite alter_app_r_alt by lia. rewrite Nat.sub_diag.
    rewrite <- Hlen at 2.
    rewrite insert_app_r_alt by lia. rewrite Nat.sub_diag.
    cbn [alter list_alter insert list_insert drop].
    specialize (IH (done_A ++ [spec_row p]) (done_b ++ [spec_rhs p])).
    rewrite !length_app in IH. cbn [length] in IH.
    rewrite !Nat.add_1_r in IH.
    rewrite <- !app_assoc in IH. cbn [app] in IH.
    assert (Hrow : scale (-2) (np_array p) ++ [1] = spec_row p)
      by (destruct p as [[x y] z]; reflexivity).
    assert (Hrhs : - norm (np_array p) ^ 2 = spec_rhs p).
    { destruct p as [[x y] z]. rewrite norm_squared. simpl. f_equal. ring. }
    rewrite Hrow, Hrhs.
    apply IH. lia.
Qed.

(** The linear system the cell sets up is the one of the specification. *)
Lemma linear_system_closed_form (points : list point) :
  linear_system points = (map spec_row points, map spec_rhs points).
Proof.
  unfold linear_system, enumerate.
  exact (fill_rows_from points [] [] eq_refl).
Qed.

End SystemFacts.

Section LeastSquaresFacts.

Import SphereFit.

Lemma residual_nonneg (A : list (list R)) (b u : list R) : 0 <= residual A b u.
Proof.
  unfold residual, sum_R.
  induction (combine A b) as [|rb l IH]; cbn [map fold_right]; [lra|].
  pose proof (pow2_ge_0 (dot (fst rb) u - snd rb)). lra.
Qed.

(** The residual of the system of the specification, point by point. *)
Lemma residual_spec_system (points : list point) (u : list R) :
  residual (map spec_row points) (map spec_rhs points) u
  = sum_R (map (fun p => equation_error u p ^ 2) points).
Proof.
  unfold residual.
  induction points as [|p points IH]; [reflexivity|].
  cbn [map combine sum_R fold_right fst snd] in *. unfold sum_R in IH.
  rewrite IH. reflexivity.
Qed.

(** A sum of squares that vanishes has every term zero. *)
Lemma errors_vanish (points : list point) (u : list R) :
  sum_R (map (fun p => equation_error u p ^ 2) points) <= 0 ->
  Forall (fun p => equation_error u p = 0) points.
Proof.
  induction points as [|p points IH]; intros Hsum; constructor.
  - cbn [map sum_R fold_right] in Hsum.
    pose proof (pow2_ge_0 (equation_error u p)) as Hp.
    pose proof (residual_nonneg (map spec_row points) (map spec_rhs points) u) as Hr.
    rewrite residual_spec_system in Hr. unfold sum_R in Hr.
    assert (H0 : equation_error u p ^ 2 = 0) by lra.
    apply Rsqr_0_uniq. rewrite Rsqr_pow2. exact H0.
  - apply IH.
    cbn [map sum_R fold_right] in Hsum.
    pose proof (pow2_ge_0 (equation_error u p)) as Hp.
    unfold sum_R. lra.
Qed.

(** The equation of a point on the sphere holds exactly at the sphere's
    own parameters. *)
Lemma on_sphere_equation (cx cy cz r : R) (p : point) :
  on_sphere (cx, cy, cz) r p ->
  equation_error [cx; cy; cz; cx * cx + cy * cy + cz * cz - r ^ 2] p = 0.
Proof.
  destruct p as [[x y] z]. unfold on_sphere, equation_error, spec_row, spec_rhs, dot, sum_R.
  cbn [combine map fold_right fst snd]. intros H. 
  replace (r ^ 2) with ((x - cx) ^ 2 + (y - cy) ^ 2 + (z - cz) ^ 2) by exact H.
  ring.
Qed.

Lemma on_sphere_residual (cx cy cz r : R) (points : list point) :
  Forall (on_sphere (cx, cy, cz) r) points ->
  residual (map spec_row points) (map spec_rhs points)
    [cx; cy; cz; cx * cx + cy * cy + cz * cz - r ^ 2] = 0.
Proof.
  intros Hall. rewrite residual_spec_system.
  induction Hall as [|p points Hp _ IH]; [reflexivity|].
  cbn [map sum_R fold_right]. unfold sum_R in IH. rewrite IH.
  rewrite (on_sphere_equation _ _ _ _ _ Hp). ring.
Qed.

(** A vector with four components solving every equation exactly is a
    least-squares solution. *)
Lemma exact_solution_least_squares (A : list (list R)) (b u : list R) :
  length u = 4%nat -> residual A b u = 0 -> least_squares A b u.
Proof.
  intros Hlen Hres. split; [exact Hlen|].
  intros u' _. rewrite Hres. apply residual_nonneg.
Qed.

(** Moving the fourth unknown by [t] changes the residual by
    2t(sum of errors) + N t^2. *)
Lemma residual_shift_k (points : list point) (cx cy cz k t : R) :
  sum_R (map (fun p => equation_error [cx; cy; cz; k + t] p ^ 2) points)
  = sum_R (map (fun p => equation_error [cx; cy; cz; k] p ^ 2) points)
    + 2 * t * sum_R (map (equation_error [cx; cy; cz; k]) points)
    + INR (length points) * t ^ 2.
Proof.
  induction points as [|p points IH].
  - simpl. ring.
  - cbn [map sum_R fold_right length] in *. unfold sum_R in IH. rewrite IH.
    rewrite S_INR.
    destruct p as [[x y] z].
    unfold equation_error, spec_row, spec_rhs, dot, sum_R.
    cbn [combine map fold_right fst snd length]. ring.
Qed.

(** N(|c|^2 - k) is the sum of the squared distances to the centre, less
    the sum of the errors. *)
Lemma radicand_as_distances (points : list point) (cx cy cz k : R) :
  INR (length points) * (cx * cx + cy * cy + cz * cz - k)
  = sum_R (map (dist2 (cx, cy, cz)) points)
    - sum_R (map (equation_error [cx; cy; cz; k]) points).
Proof.
  induction points as [|p points IH].
  - simpl. ring.
  - cbn [map sum_R fold_right length] in *. unfold sum_R in IH.
    rewrite S_INR.
    destruct p as [[x y] z].
    unfold equation_error, spec_row, spec_rhs, dot, sum_R, dist2 in *.
    cbn [combine map fold_right fst snd] in *. lra.
Qed.

Lemma dist2_sum_nonneg (c : point) (points : list point) :
  0 <= sum_R (map (dist2 c) points).
Proof.
  unfold sum_R.
  induction points as [|p points IH]; cbn [map fold_right]; [lra|].
  assert (Hp : 0 <= dist2 c p).
  { destruct c as [[cx cy] cz], p as [[x y] z]. unfold dist2.
    pose proof (Rle_0_sqr (x - cx)) as Hx.
    pose proof (Rle_0_sqr (y - cy)) as Hy.
    pose proof (Rle_0_sqr (z - cz)) as Hz.
    unfold Rsqr in *. lra. }
  lra.
Qed.

(** At a least-squares solution over at least one point, |c|^2 - k is the
    mean squared distance from the centre to the points: never negative. *)
Lemma least_squares_radicand_nonneg (points : list point) (cx cy cz k : R) :
  points <> [] ->
  least_squares (map spec_row points) (map spec_rhs points) [cx; cy; cz; k] ->
  0 <= cx * cx + cy * cy + cz * cz - k.
Proof.
  intros Hne [_ Hmin].
  set (n := INR (length points)).
  assert (Hn : 0 < n).
  { unfold n. destruct points; [contradiction|]. apply lt_0_INR. simpl. lia. }
  set (S := sum_R (map (equation_error [cx; cy; cz; k]) points)).
  assert (HS : S = 0).
  { specialize (Hmin [cx; cy; cz; k + - S / n] eq_refl).
    rewrite !residual_spec_system, residual_shift_k in Hmin.
    fold S n in Hmin.
    assert (Hq : 2 * (- S / n) * S + n * (- S / n) ^ 2 = - (S * S) / n)
      by (field; lra).
    assert (Hdiv : 0 <= - (S * S) / n) by lra.
    assert (Hmul : S * S = - (- (S * S) / n) * n) by (field; lra).
    assert (Hsq : S * S <= 0).
    { rewrite Hmul. rewrite <- (Rmult_0_l n).
      apply Rmult_le_compat_r; lra. }
    apply Rsqr_0_uniq. pose proof (Rle_0_sqr S) as H0.
    unfold Rsqr in *. lra. }
  pose proof (radicand_as_distances points cx cy cz k) as Hrad.
  fold S n in Hrad. rewrite HS in Hrad.
  pose proof (dist2_sum_nonneg (cx, cy, cz) points) as Hd.
  nra.
Qed.

End LeastSquaresFacts.

Section FitClaims.

Import SphereFit.

Variable lstsq : list (list R) -> list R -> result (list R).

Lemma least_squares_four (A : list (list R)) (b u : list R) :
  least_squares A b u -> exists cx cy cz k, u = [cx; cy; cz; k].
Proof.
  intros [Hlen _].
  destruct u as [|cx [|cy [|cz [|k [|]]]]]; try discriminate.
  now exists cx, cy, cz, k.
Qed.

Lemma sphere_fit_returned (points : list point) (cx cy cz k : R) :
  lstsq (fst (linear_system points)) (snd (linear_system points))
  = Return [cx; cy; cz; k] ->
  sphere_fit lstsq points
  = Return ([cx; cy; cz], np_sqrt (cx * cx + cy * cy + cz * cz - k)).
Proof.
  intros Hsolve. unfold sphere_fit.
  destruct (linear_system points) as [A b]. cbn [fst snd] in Hsolve.
  rewrite Hsolve. unfold radius. cbn [lookup list_lookup take].
  rewrite norm_squared. cbn [map sum_R fold_right].
  do 3 f_equal. ring.
Qed.

(** C2.  The cell builds the N x 4 matrix with rows [-2x, -2y, -2z, 1]
    and the right-hand side -|p|^2, hands both to the least-squares
    solver, and from its answer u = [cx, cy, cz, k], a minimiser of the
    sum of the squared equation errors, takes the centre u[0:3] and the
    radius sqrt(|centre|^2 - k); with at least one point the radicand is
    not negative, so the radius is that square root. *)
Theorem sphere_fit_spec (points : list point) (A : list (list R)) (b u : list R) :
  linear_system points = (A, b) ->
  lstsq A b = Return u ->
  least_squares A b u ->
  A = map spec_row points /\
  b = map spec_rhs points /\
  (forall u', length u' = 4%nat ->
     sum_R (map (fun p => (dot (spec_row p) u - spec_rhs p) ^ 2) points)
     <= sum_R (map (fun p => (dot (spec_row p) u' - spec_rhs p) ^ 2) points)) /\
  exists cx cy cz k,
    u = [cx; cy; cz; k] /\
    sphere_fit lstsq points
    = Return ([cx; cy; cz], np_sqrt (cx * cx + cy * cy + cz * cz - k)) /\
    (points <> [] ->
     np_sqrt (cx * cx + cy * cy + cz * cz - k)
     = Finite (sqrt (cx * cx + cy * cy + cz * cz - k))).
Proof.
  intros Hsys Hsolve Hls.
  rewrite linear_system_closed_form in Hsys. inversion Hsys; subst A b.
  split; [reflexivity|]. split; [reflexivity|]. split.
  - intros u' Hu'. destruct Hls as [_ Hmin]. specialize (Hmin u' Hu').
    rewrite !residual_spec_system in Hmin. exact Hmin.
  - destruct (least_squares_four _ _ _ Hls) as (cx & cy & cz & k & ->).
    exists cx, cy, cz, k. split; [reflexivity|]. split.
    + apply sphere_fit_returned. rewrite linear_system_closed_form. exact Hsolve.
    + intros Hne.
      pose proof (least_squares_radicand_nonneg points cx cy cz k Hne Hls) as Hrad.
      unfold np_sqrt. destruct (Rlt_dec _ _) as [Hneg|_]; [lra|reflexivity].
Qed.

(** C3, as the code has it.  The cell has no check of the number of points
    or of the rank: whenever the solver returns four unknowns, fewer than
    four points or a rank-deficient matrix included, the fit returns the
    centre and the radius computed from them and raises nothing. *)
Theorem sphere_fit_checks_no_degeneracy (points : list point) (cx cy cz k : R) :
  lstsq (fst (linear_system points)) (snd (linear_system points))
  = Return [cx; cy; cz; k] ->
  sphere_fit lstsq points
  = Return ([cx; cy; cz], np_sqrt (norm [cx; cy; cz] ^ 2 - k)) /\
  forall e, sphere_fit lstsq points <> Raise e.
Proof.
  intros Hsolve. rewrite (sphere_fit_returned _ _ _ _ _ Hsolve).
  split; [|discriminate].
  rewrite norm_squared. cbn [map sum_R fold_right].
  do 3 f_equal. ring.
Qed.

(** C8.  Points lying exactly on the sphere of centre (cx,cy,cz) and radius
    r, with a matrix of full column rank (which ten points in general
    position give): the fit returns exactly that centre and that radius,
    whatever minimiser the solver returns, since there is only one. *)
Theorem sphere_fit_round_trip (points : list point) (A : list (list R))
    (b u : list R) (cx cy cz r : R) :
  linear_system points = (A, b) ->
  lstsq A b = Return u ->
  least_squares A b u ->
  full_column_rank A ->
  Forall (on_sphere (cx, cy, cz) r) points ->
  0 <= r ->
  sphere_fit lstsq points = Return ([cx; cy; cz], Finite r).
Proof.
  intros Hsys Hsolve Hls Hrank Hon Hr.
  rewrite linear_system_closed_form in Hsys. inversion Hsys; subst A b.
  set (k0 := cx * cx + cy * cy + cz * cz - r ^ 2).
  destruct (least_squares_four _ _ _ Hls) as (ux & uy & uz & uk & ->).
  assert (Hexact : Forall (fun p => equation_error [ux; uy; uz; uk] p = 0) points).
  { apply errors_vanish. rewrite <- residual_spec_system.
    destruct Hls as [_ Hmin]. specialize (Hmin [cx; cy; cz; k0] eq_refl).
    unfold k0 in Hmin. rewrite (on_sphere_residual _ _ _ _ _ Hon) in Hmin.
    exact Hmin. }
  assert (Hdiff : [ux - cx; uy - cy; uz - cz; uk - k0] = [0; 0; 0; 0]).
  { apply Hrank; [reflexivity|].
    intros row Hrow. apply in_map_iff in Hrow. destruct Hrow as (p & <- & Hp).
    rewrite Forall_forall in Hexact, Hon.
    pose proof (Hexact p ltac:(apply list_elem_of_In; exact Hp)) as He.
    pose proof (on_sphere_equation cx cy cz r p
                  (Hon p ltac:(apply list_elem_of_In; exact Hp))) as Hs.
    fold k0 in Hs.
    destruct p as [[x y] z].
    unfold equation_error, spec_row, spec_rhs, dot, sum_R in *.
    cbn [combine map fold_right fst snd] in *. lra. }
  inversion Hdiff as [[Hx Hy Hz Hk]].
  assert (ux = cx) by lra. assert (uy = cy) by lra.
  assert (uz = cz) by lra. assert (uk = k0) by lra. subst ux uy uz uk.
  rewrite (sphere_fit_returned points cx cy cz k0)
    by (rewrite linear_system_closed_form; exact Hsolve).
  do 2 f_equal. unfold np_sqrt, k0.
  replace (cx * cx + cy * cy + cz * cz - (cx * cx + cy * cy + cz * cz - r ^ 2))
    with (r ^ 2) by ring.
  destruct (Rlt_dec _ _) as [Hneg|_].
  - pose proof (pow2_ge_0 r). lra.
  - f_equal. apply sqrt_pow2. exact Hr.
Qed.

End FitClaims.

Section FitWorkedInputs.

Import SphereFit.

Lemma ten_points_on_sphere : Forall (on_sphere (1, 2, 3) 5) ten_points.
Proof. unfold ten_points. repeat constructor; unfold on_sphere; lra. Qed.

Lemma ten_points_full_rank : full_column_rank (map spec_row ten_points).
Proof.
  intros u Hlen Hrows.
  destruct u as [|a [|b [|c [|d [|]]]]]; try discriminate.
  pose proof (Hrows (spec_row (6, 2, 3)) ltac:(simpl; tauto)) as H1.
  pose proof (Hrows (spec_row (-4, 2, 3)) ltac:(simpl; tauto)) as H2.
  pose proof (Hrows (spec_row (1, 7, 3)) ltac:(simpl; tauto)) as H3.
  pose proof (Hrows (spec_row (1, -3, 3)) ltac:(simpl; tauto)) as H4.
  pose proof (Hrows (spec_row (1, 2, 8)) ltac:(simpl; tauto)) as H5.
  pose proof (Hrows (spec_row (1, 2, -2)) ltac:(simpl; tauto)) as H6.
  unfold spec_row, dot, sum_R in H1, H2, H3, H4, H5, H6.
  cbn [combine map fold_right fst snd] in H1, H2, H3, H4, H5, H6.
  repeat f_equal; lra.
Qed.

Lemma ten_points_least_squares :
  least_squares (map spec_row ten_points) (map spec_rhs ten_points) [1; 2; 3; -11].
Proof.
  apply exact_solution_least_squares; [reflexivity|].
  replace (-11) with (1 * 1 + 2 * 2 + 3 * 3 - 5 ^ 2) by lra.
  apply on_sphere_residual, ten_points_on_sphere.
Qed.

(** Ten points on the sphere of centre (1,2,3) and radius 5 give back
    centre (1,2,3) and radius 5. *)
Lemma sphere_fit_round_trip_witness :
  sphere_fit (answering [1; 2; 3; -11]) ten_points = Return ([1; 2; 3], Finite 5).
Proof.
  apply (sphere_fit_round_trip (answering [1; 2; 3; -11]) ten_points
           (map spec_row ten_points) (map spec_rhs ten_points) [1; 2; 3; -11]).
  - apply linear_system_closed_form.
  - reflexivity.
  - apply ten_points_least_squares.
  - apply ten_points_full_rank.
  - apply ten_points_on_sphere.
  - lra.
Defined.

(** The same ten points, read through the description of the fit. *)
Lemma sphere_fit_spec_witness :
  exists cx cy cz k,
    [1; 2; 3; -11] = [cx; cy; cz; k] /\
    sphere_fit (answering [1; 2; 3; -11]) ten_points
    = Return ([cx; cy; cz], np_sqrt (cx * cx + cy * cy + cz * cz - k)) /\
    (ten_points <> [] ->
     np_sqrt (cx * cx + cy * cy + cz * cz - k)
     = Finite (sqrt (cx * cx + cy * cy + cz * cz - k))).
Proof.
  apply (sphere_fit_spec (answering [1; 2; 3; -11]) ten_points
           (map spec_row ten_points) (map spec_rhs ten_points) [1; 2; 3; -11]).
  - apply linear_system_closed_form.
  - reflexivity.
  - apply ten_points_least_squares.
Defined.

(** The least-norm exact solution of the three equations of
    [three_points]. *)
Lemma three_points_minimum_norm :
  minimum_norm (fst (linear_system three_points)) (snd (linear_system three_points))
    [2 / 7; 2 / 7; 2 / 7; -3 / 7].
Proof.
  rewrite linear_system_closed_form. cbn [fst snd].
  assert (Hres : residual (map spec_row three_points) (map spec_rhs three_points)
                   [2 / 7; 2 / 7; 2 / 7; -3 / 7] = 0).
  { unfold residual, three_points, spec_row, spec_rhs, dot, sum_R.
    cbn [combine map fold_right fst snd]. field. }
  split; [apply exact_solution_least_squares; [reflexivity | exact Hres]|].
  intros u' Hu'.
  destruct (least_squares_four _ _ _ Hu') as (a & b & c & d & ->).
  destruct Hu' as [_ Hmin].
  specialize (Hmin [2 / 7; 2 / 7; 2 / 7; -3 / 7] eq_refl). rewrite Hres in Hmin.
  rewrite residual_spec_system in Hmin. apply errors_vanish in Hmin.
  unfold three_points in Hmin.
  inversion Hmin as [|? ? H1 Hmin1]; subst.
  inversion Hmin1 as [|? ? H2 Hmin2]; subst.
  inversion Hmin2 as [|? ? H3 _]; subst.
  unfold equation_error, spec_row, spec_rhs, dot, sum_R in H1, H2, H3.
  cbn [combine map fold_right fst snd] in H1, H2, H3.
  unfold norm. apply sqrt_le_1_alt. cbn [map sum_R fold_right].
  assert (a = (1 + d) / 2) by lra. assert (b = (1 + d) / 2) by lra.
  assert (c = (1 + d) / 2) by lra. subst a b c.
  pose proof (Rle_0_sqr (7 * d + 3)) as Hsq. unfold Rsqr in Hsq. lra.
Qed.

(** Three points: the matrix has rank 3, and the fit returns all the same. *)
Lemma sphere_fit_checks_no_degeneracy_witness :
  sphere_fit (answering [2 / 7; 2 / 7; 2 / 7; -3 / 7]) three_points
  = Return ([2 / 7; 2 / 7; 2 / 7],
            np_sqrt (norm [2 / 7; 2 / 7; 2 / 7] ^ 2 - -3 / 7)) /\
  forall e, sphere_fit (answering [2 / 7; 2 / 7; 2 / 7; -3 / 7]) three_points
            <> Raise e.
Proof.
  apply (sphere_fit_checks_no_degeneracy
           (answering [2 / 7; 2 / 7; 2 / 7; -3 / 7]) three_points
           (2 / 7) (2 / 7) (2 / 7) (-3 / 7)).
  reflexivity.
Defined.

(** C3, as stated, fails.  Three points are fewer than four and their
    matrix is rank-deficient; on the least-norm solution, which is what
    the solver answers then, the fit returns centre (2/7, 2/7, 2/7) and
    radius sqrt(33/49) and raises no DegenerateInputError. *)
Lemma sphere_fit_three_points_returns :
  (length three_points < 4)%nat /\
  ~ full_column_rank (fst (linear_system three_points)) /\
  minimum_norm (fst (linear_system three_points)) (snd (linear_system three_points))
    [2 / 7; 2 / 7; 2 / 7; -3 / 7] /\
  sphere_fit (answering [2 / 7; 2 / 7; 2 / 7; -3 / 7]) three_points
  = Return ([2 / 7; 2 / 7; 2 / 7], Finite (sqrt (33 / 49))) /\
  sphere_fit (answering [2 / 7; 2 / 7; 2 / 7; -3 / 7]) three_points
  <> Raise "DegenerateInputError".
Proof.
  assert (Hfit : sphere_fit (answering [2 / 7; 2 / 7; 2 / 7; -3 / 7]) three_points
                 = Return ([2 / 7; 2 / 7; 2 / 7], Finite (sqrt (33 / 49)))).
  { rewrite (sphere_fit_returned _ three_points (2 / 7) (2 / 7) (2 / 7) (-3 / 7))
      by reflexivity.
    assert (Hval : 2 / 7 * (2 / 7) + 2 / 7 * (2 / 7) + 2 / 7 * (2 / 7) - -3 / 7
                   = 33 / 49) by field.
    rewrite Hval. unfold np_sqrt.
    destruct (Rlt_dec _ _) as [Hneg|_]; [lra|reflexivity]. }
  split; [simpl; lia|]. split; [|split; [apply three_points_minimum_norm|]].
  - rewrite linear_system_closed_form. cbn [fst]. intros Hrank.
    assert (H : [1; 1; 1; 2] = [0; 0; 0; 0]).
    { apply Hrank; [reflexivity|].
      intros row Hrow. simpl in Hrow.
      destruct Hrow as [<-|[<-|[<-|[]]]]; unfold dot, sum_R; simpl; lra. }
    inversion H; lra.
  - split; [exact Hfit|]. rewrite Hfit. discriminate.
Qed.

End FitWorkedInputs.

Section SearchWorkedInputs.

Import Registration.

(** The end-to-end scenario run on the evaluator that answers 0.8, 0.3,
    0.9, 0.5 in turn: the first candidate wins with 0.3. *)
Lemma orientation_search_spec_witness :
  orientation_search scenario_metric (0, 0, 0) (0, 0, 0)
    [ ("cand1"%string, (0, 0, PI / 2)); ("cand2"%string, (PI, 0, 0));
      ("cand3"%string, (PI, 0, PI / 2)) ]
  = (SetRotation
       (CenteredTransformInitializer (0, 0, 0) (0, 0, 0) Euler3DTransform_default)
       (0, 0, PI / 2),
     (0, 0, PI / 2), 0.3).
Proof.
  apply (proj2 (proj2 (proj2
           (orientation_search_spec scenario_metric (0, 0, 0) (0, 0, 0)))));
    reflexivity.
Defined.

End SearchWorkedInputs.

(** ** Part VI: more on the sphere fit *)

Section FitInvariance.

Import SphereFit PointSets.

Lemma sum_R_permutation (v v' : list R) : Permutation v v' -> sum_R v = sum_R v'.
Proof.
  unfold sum_R. induction 1; cbn [fold_right]; lra.
Qed.

Lemma four_components (u : list R) :
  length u = 4%nat -> exists a b c k, u = [a; b; c; k].
Proof.
  intros Hlen. destruct u as [|a [|b [|c [|k [|]]]]]; try discriminate.
  now exists a, b, c, k.
Qed.

(** At a least-squares solution over at least one point the errors of
    the equations add up to zero. *)
Lemma least_squares_errors_cancel (points : list point) (cx cy cz k : R) :
  points <> [] ->
  least_squares (map spec_row points) (map spec_rhs points) [cx; cy; cz; k] ->
  sum_R (map (equation_error [cx; cy; cz; k]) points) = 0.
Proof.
  intros Hne [_ Hmin].
  set (n := INR (length points)).
  assert (Hn : 0 < n).
  { unfold n. destruct points; [contradiction|]. apply lt_0_INR. simpl. lia. }
  set (S := sum_R (map (equation_error [cx; cy; cz; k]) points)).
  specialize (Hmin [cx; cy; cz; k + - S / n] eq_refl).
  rewrite !residual_spec_system, residual_shift_k in Hmin.
  fold S n in Hmin.
  assert (Hq : 2 * (- S / n) * S + n * (- S / n) ^ 2 = - (S * S) / n)
    by (field; lra).
  assert (Hdiv : 0 <= - (S * S) / n) by lra.
  assert (Hmul : S * S = - (- (S * S) / n) * n) by (field; lra).
  assert (Hsq : S * S <= 0).
  { rewrite Hmul. rewrite <- (Rmult_0_l n).
    apply Rmult_le_compat_r; lra. }
  apply Rsqr_0_uniq. pose proof (Rle_0_sqr S) as H0.
  unfold Rsqr in *. lra.
Qed.

(** Minimisers are carried along by a change of unknowns that multiplies
    every residual by the same positive factor. *)
Lemma least_squares_transport (A A' : list (list R)) (b b' : list R)
    (f g : list R -> list R) (c : R) :
  0 < c ->
  (forall u, length u = 4%nat -> length (f u) = 4%nat) ->
  (forall u, length u = 4%nat -> residual A' b' (f u) = c * residual A b u) ->
  (forall u', length u' = 4%nat -> length (g u') = 4%nat /\ f (g u') = u') ->
  forall u, least_squares A b u -> least_squares A' b' (f u).
Proof.
  intros Hc Hlen Hres Hinv u [Hu Hmin]. split; [apply Hlen, Hu|].
  intros u' Hu'. destruct (Hinv u' Hu') as [Hg Hfg].
  rewrite <- Hfg. rewrite !Hres by assumption.
  apply Rmult_le_compat_l; [lra|]. apply Hmin, Hg.
Qed.

Lemma residual_map_points (f : point -> point) (points : list point) (u : list R) :
  residual (map spec_row (map f points)) (map spec_rhs (map f points)) u
  = sum_R (map (fun p => equation_error u (f p) ^ 2) points).
Proof. rewrite residual_spec_system, map_map. reflexivity. Qed.

Lemma sum_R_scaled (c : R) (f g : point -> R) (points : list point) :
  (forall p, f p = c * g p) ->
  sum_R (map f points) = c * sum_R (map g points).
Proof.
  intros Hfg. unfold sum_R.
  induction points as [|p points IH]; cbn [map fold_right]; [ring|].
  rewrite IH, Hfg. ring.
Qed.

Lemma translate_residual (d : point) (points : list point) (u : list R) :
  length u = 4%nat ->
  residual (map spec_row (map (translate d) points))
           (map spec_rhs (map (translate d) points)) (translate_unknowns d u)
  = 1 * residual (map spec_row points) (map spec_rhs points) u.
Proof.
  intros Hu. destruct (four_components u Hu) as (cx & cy & cz & k & ->).
  rewrite residual_map_points, residual_spec_system.
  apply sum_R_scaled. intros [[x y] z]. destruct d as [[dx dy] dz].
  unfold equation_error, translate_unknowns, translate, spec_row, spec_rhs, dot, sum_R.
  cbn [combine map fold_right fst snd]. ring.
Qed.

Lemma translate_unknowns_inverse (d : point) (u : list R) :
  length u = 4%nat ->
  let '(dx, dy, dz) := d in
  length (translate_unknowns (- dx, - dy, - dz) u) = 4%nat /\
  translate_unknowns d (translate_unknowns (- dx, - dy, - dz) u) = u.
Proof.
  intros Hu. destruct (four_components u Hu) as (cx & cy & cz & k & ->).
  destruct d as [[dx dy] dz]. split; [reflexivity|].
  unfold translate_unknowns. repeat (f_equal; try ring).
Qed.

Lemma rescale_residual (s : R) (points : list point) (u : list R) :
  length u = 4%nat ->
  residual (map spec_row (map (rescale s) points))
           (map spec_rhs (map (rescale s) points)) (rescale_unknowns s u)
  = (s * s) ^ 2 * residual (map spec_row points) (map spec_rhs points) u.
Proof.
  intros Hu. destruct (four_components u Hu) as (cx & cy & cz & k & ->).
  rewrite residual_map_points, residual_spec_system.
  apply sum_R_scaled. intros [[x y] z].
  unfold equation_error, rescale_unknowns, rescale, spec_row, spec_rhs, dot, sum_R.
  cbn [combine map fold_right fst snd]. ring.
Qed.

Lemma slide_residual (n : point) (d t : R) (points : list point) (u : list R) :
  length u = 4%nat ->
  Forall (fun p => inner n p = d) points ->
  residual (map spec_row points) (map spec_rhs points) (slide_unknowns n d t u)
  = residual (map spec_row points) (map spec_rhs points) u.
Proof.
  intros Hu Hplane. destruct (four_components u Hu) as (cx & cy & cz & k & ->).
  rewrite !residual_spec_system.
  induction Hplane as [|p points Hp _ IH]; [reflexivity|].
  cbn [map sum_R fold_right]. unfold sum_R in IH. rewrite IH. f_equal.
  destruct p as [[x y] z], n as [[nx ny] nz].
  unfold inner in Hp.
  unfold equation_error, slide_unknowns, spec_row, spec_rhs, dot, sum_R.
  cbn [combine map fold_right fst snd].
  replace (-2 * x * (cx + t * nx) + (-2 * y * (cy + t * ny) +
           (-2 * z * (cz + t * nz) + (1 * (k + 2 * t * d) + 0))) -
           - (x * x + y * y + z * z))
    with (-2 * x * cx + (-2 * y * cy + (-2 * z * cz + (1 * k + 0))) -
          - (x * x + y * y + z * z) + 2 * t * (d - (nx * x + ny * y + nz * z)))
    by ring.
  rewrite Hp. f_equal. ring.
Qed.

Lemma translate_unknowns_length (d : point) (u : list R) :
  length u = 4%nat -> length (translate_unknowns d u) = 4%nat.
Proof.
  intros Hu. destruct (four_components u Hu) as (cx & cy & cz & k & ->).
  destruct d as [[dx dy] dz]. reflexivity.
Qed.

Lemma rescale_unknowns_length (s : R) (u : list R) :
  length u = 4%nat -> length (rescale_unknowns s u) = 4%nat.
Proof.
  intros Hu. destruct (four_components u Hu) as (cx & cy & cz & k & ->).
  reflexivity.
Qed.

Lemma rescale_unknowns_back (s : R) (u : list R) :
  s <> 0 -> length u = 4%nat ->
  rescale_unknowns s (rescale_unknowns (/ s) u) = u /\
  rescale_unknowns (/ s) (rescale_unknowns s u) = u.
Proof.
  intros Hs Hu. destruct (four_components u Hu) as (cx & cy & cz & k & ->).
  unfold rescale_unknowns. split; repeat (f_equal; try (field; exact Hs)).
Qed.

Lemma least_squares_translate (d : point) (points : list point) (u : list R) :
  least_squares (map spec_row points) (map spec_rhs points) u ->
  least_squares (map spec_row (map (translate d) points))
    (map spec_rhs (map (translate d) points)) (translate_unknowns d u).
Proof.
  destruct d as [[dx dy] dz].
  apply (least_squares_transport (map spec_row points) _ (map spec_rhs points) _
           (translate_unknowns (dx, dy, dz))
           (translate_unknowns (- dx, - dy, - dz)) 1); try lra.
  - intros v Hv. apply translate_unknowns_length, Hv.
  - intros v Hv. apply translate_residual, Hv.
  - intros v Hv. apply (translate_unknowns_inverse (dx, dy, dz) v Hv).
Qed.

Lemma least_squares_rescale (s : R) (points : list point) (u : list R) :
  s <> 0 ->
  least_squares (map spec_row points) (map spec_rhs points) u ->
  least_squares (map spec_row (map (rescale s) points))
    (map spec_rhs (map (rescale s) points)) (rescale_unknowns s u).
Proof.
  intros Hs.
  apply (least_squares_transport (map spec_row points) _ (map spec_rhs points) _
           (rescale_unknowns s) (rescale_unknowns (/ s)) ((s * s) ^ 2)).
  - apply pow_lt. nra.
  - intros v Hv. apply rescale_unknowns_length, Hv.
  - intros v Hv. apply rescale_residual, Hv.
  - intros v Hv. split; [apply rescale_unknowns_length, Hv|].
    apply (rescale_unknowns_back s v Hs Hv).
Qed.

(** *** One least-squares solution only, when the rank is full *)

Lemma squares_sum_nonneg (f : point -> R) (points : list point) :
  0 <= sum_R (map (fun p => f p ^ 2) points).
Proof.
  unfold sum_R.
  induction points as [|p points IH]; cbn [map fold_right]; [lra|].
  pose proof (pow2_ge_0 (f p)). lra.
Qed.

Lemma squares_vanish (f : point -> R) (points : list point) :
  sum_R (map (fun p => f p ^ 2) points) <= 0 ->
  forall p, In p points -> f p = 0.
Proof.
  induction points as [|q points IH]; intros Hsum p Hp; [destruct Hp|].
  cbn [map sum_R fold_right] in Hsum.
  pose proof (pow2_ge_0 (f q)) as Hq.
  pose proof (squares_sum_nonneg f points) as Hrest. unfold sum_R in Hrest.
  destruct Hp as [<-|Hp].
  - assert (H0 : f q ^ 2 = 0) by lra.
    apply Rsqr_0_uniq. rewrite Rsqr_pow2. exact H0.
  - apply IH; [unfold sum_R; lra | exact Hp].
Qed.

(** The residual halfway between two vectors of unknowns: the mean of
    the two residuals, less a quarter of the squared image of their
    difference. *)
Lemma midpoint_residual (points : list point) (a1 b1 c1 k1 a2 b2 c2 k2 : R) :
  sum_R (map (fun p => equation_error
                         [(a1 + a2) / 2; (b1 + b2) / 2; (c1 + c2) / 2; (k1 + k2) / 2]
                         p ^ 2) points)
  = (sum_R (map (fun p => equation_error [a1; b1; c1; k1] p ^ 2) points)
     + sum_R (map (fun p => equation_error [a2; b2; c2; k2] p ^ 2) points)) / 2
    - sum_R (map (fun p => dot (spec_row p) [a1 - a2; b1 - b2; c1 - c2; k1 - k2] ^ 2)
               points) / 4.
Proof.
  induction points as [|p points IH].
  - cbn [map sum_R fold_right]. field.
  - cbn [map sum_R fold_right] in *. unfold sum_R in IH. rewrite IH.
    destruct p as [[x y] z].
    unfold equation_error, spec_row, spec_rhs, dot, sum_R.
    cbn [combine map fold_right fst snd]. field.
Qed.

Lemma least_squares_unique (points : list point) (u1 u2 : list R) :
  full_column_rank (map spec_row points) ->
  least_squares (map spec_row points) (map spec_rhs points) u1 ->
  least_squares (map spec_row points) (map spec_rhs points) u2 ->
  u1 = u2.
Proof.
  intros Hrank [Hu1 Hmin1] [Hu2 Hmin2].
  destruct (four_components u1 Hu1) as (a1 & b1 & c1 & k1 & ->).
  destruct (four_components u2 Hu2) as (a2 & b2 & c2 & k2 & ->).
  pose proof (Hmin1 [(a1 + a2) / 2; (b1 + b2) / 2; (c1 + c2) / 2; (k1 + k2) / 2]
                eq_refl) as H1.
  pose proof (Hmin2 [(a1 + a2) / 2; (b1 + b2) / 2; (c1 + c2) / 2; (k1 + k2) / 2]
                eq_refl) as H2.
  rewrite !residual_spec_system in H1, H2.
  rewrite midpoint_residual in H1, H2.
  assert (Hz : sum_R (map (fun p => dot (spec_row p)
                                      [a1 - a2; b1 - b2; c1 - c2; k1 - k2] ^ 2)
                        points) <= 0) by lra.
  assert (Hw : [a1 - a2; b1 - b2; c1 - c2; k1 - k2] = [0; 0; 0; 0]).
  { apply Hrank; [reflexivity|]. intros row Hrow.
    apply in_map_iff in Hrow. destruct Hrow as (p & <- & Hp).
    exact (squares_vanish
             (fun p => dot (spec_row p) [a1 - a2; b1 - b2; c1 - c2; k1 - k2])
             points Hz p Hp). }
  injection Hw as Ha Hb Hc Hk.
  repeat (f_equal; try lra).
Qed.

Lemma full_column_rank_nonempty (points : list point) :
  full_column_rank (map spec_row points) -> points <> [].
Proof.
  intros Hrank ->.
  assert (H : [1; 0; 0; 0] = [0; 0; 0; 0])
    by (apply Hrank; [reflexivity | intros row []]).
  inversion H; lra.
Qed.

Lemma full_column_rank_translate (d : point) (points : list point) :
  full_column_rank (map spec_row points) ->
  full_column_rank (map spec_row (map (translate d) points)).
Proof.
  intros Hrank v Hv Hker.
  destruct (four_components v Hv) as (v1 & v2 & v3 & v4 & ->).
  destruct d as [[dx dy] dz].
  assert (Hw : [v1; v2; v3; v4 - 2 * (dx * v1 + dy * v2 + dz * v3)]
               = [0; 0; 0; 0]).
  { apply Hrank; [reflexivity|]. intros row Hrow.
    apply in_map_iff in Hrow. destruct Hrow as (p & <- & Hp).
    assert (Hin : In (spec_row (translate (dx, dy, dz) p))
                     (map spec_row (map (translate (dx, dy, dz)) points)))
      by (apply in_map, in_map, Hp).
    pose proof (Hker _ Hin) as H0.
    destruct p as [[x y] z].
    unfold translate, spec_row, dot, sum_R in H0 |- *.
    cbn [combine map fold_right fst snd] in H0 |- *. lra. }
  injection Hw as H1 H2 H3 H4. subst v1 v2 v3.
  repeat (f_equal; try lra).
Qed.

Lemma full_column_rank_rescale (s : R) (points : list point) :
  s <> 0 ->
  full_column_rank (map spec_row points) ->
  full_column_rank (map spec_row (map (rescale s) points)).
Proof.
  intros Hs Hrank v Hv Hker.
  destruct (four_components v Hv) as (v1 & v2 & v3 & v4 & ->).
  assert (Hw : [s * v1; s * v2; s * v3; v4] = [0; 0; 0; 0]).
  { apply Hrank; [reflexivity|]. intros row Hrow.
    apply in_map_iff in Hrow. destruct Hrow as (p & <- & Hp).
    assert (Hin : In (spec_row (rescale s p))
                     (map spec_row (map (rescale s) points)))
      by (apply in_map, in_map, Hp).
    pose proof (Hker _ Hin) as H0.
    destruct p as [[x y] z].
    unfold rescale, spec_row, dot, sum_R in H0 |- *.
    cbn [combine map fold_right fst snd] in H0 |- *. lra. }
  injection Hw as H1 H2 H3 H4.
  apply Rmult_integral in H1, H2, H3.
  destruct H1 as [H1|H1]; [contradiction|].
  destruct H2 as [H2|H2]; [contradiction|].
  destruct H3 as [H3|H3]; [contradiction|].
  subst. reflexivity.
Qed.

End FitInvariance.

Section FitExtras.

Import SphereFit PointSets.

(** X1.  With an exact least-squares solution over at least one point the
    radius reported is never [nan]: it is the root of the mean squared
    distance from the fitted centre to the points. *)
Theorem sphere_fit_radius_is_rms_distance
    (lstsq : list (list R) -> list R -> result (list R))
    (points : list point) (cx cy cz k : R) :
  points <> [] ->
  lstsq (fst (linear_system points)) (snd (linear_system points))
  = Return [cx; cy; cz; k] ->
  least_squares (fst (linear_system points)) (snd (linear_system points))
    [cx; cy; cz; k] ->
  sphere_fit lstsq points
  = Return ([cx; cy; cz],
            Finite (sqrt (sum_R (map (dist2 (cx, cy, cz)) points)
                          / INR (length points)))).
Proof.
  intros Hne Hsolve Hls.
  rewrite (sphere_fit_returned lstsq points cx cy cz k Hsolve).
  rewrite linear_system_closed_form in Hls. cbn [fst snd] in Hls.
  pose proof (least_squares_errors_cancel points cx cy cz k Hne Hls) as Hsum.
  pose proof (radicand_as_distances points cx cy cz k) as Hrad.
  rewrite Hsum in Hrad.
  assert (Hn : 0 < INR (length points)).
  { destruct points; [contradiction|]. apply lt_0_INR. simpl. lia. }
  assert (Heq : cx * cx + cy * cy + cz * cz - k
                = sum_R (map (dist2 (cx, cy, cz)) points) / INR (length points)).
  { apply Rmult_eq_reg_l with (INR (length points)); [|lra].
    rewrite Hrad. field. lra. }
  rewrite Heq. unfold np_sqrt.
  destruct (Rlt_dec _ _) as [Hneg|_]; [|reflexivity].
  pose proof (dist2_sum_nonneg (cx, cy, cz) points) as Hd.
  assert (0 <= sum_R (map (dist2 (cx, cy, cz)) points) / INR (length points)).
  { apply Rmult_le_pos; [exact Hd|]. left. apply Rinv_0_lt_compat, Hn. }
  lra.
Qed.

(** X2.  The order of the edge points does not matter: a vector is a
    least-squares solution of the system of a point list exactly when it
    is one of the system of any reordering of the list. *)
Theorem least_squares_order_independent (points points' : list point) (u : list R) :
  Permutation points points' ->
  least_squares (fst (linear_system points)) (snd (linear_system points)) u <->
  least_squares (fst (linear_system points')) (snd (linear_system points')) u.
Proof.
  intros Hperm. rewrite !linear_system_closed_form. cbn [fst snd].
  assert (Hres : forall v,
             residual (map spec_row points) (map spec_rhs points) v
             = residual (map spec_row points') (map spec_rhs points') v).
  { intros v. rewrite !residual_spec_system.
    apply sum_R_permutation, Permutation_map, Hperm. }
  unfold least_squares. split; intros [Hu Hmin]; (split; [exact Hu|]);
    intros u' Hu'; specialize (Hmin u' Hu').
  - rewrite <- !Hres. exact Hmin.
  - rewrite !Hres. exact Hmin.
Qed.

(** X3.  On points whose matrix has full column rank, with a solver
    that answers a least-squares solution, moving every point by the same
    vector moves the fitted centre by that vector and leaves the radius
    alone. *)
Theorem sphere_fit_translation_covariant
    (lstsq : list (list R) -> list R -> result (list R))
    (points : list point) (dx dy dz cx cy cz k : R) (u' : list R) :
  let moved := map (translate (dx, dy, dz)) points in
  full_column_rank (fst (linear_system points)) ->
  lstsq (fst (linear_system points)) (snd (linear_system points))
  = Return [cx; cy; cz; k] ->
  least_squares (fst (linear_system points)) (snd (linear_system points))
    [cx; cy; cz; k] ->
  lstsq (fst (linear_system moved)) (snd (linear_system moved)) = Return u' ->
  least_squares (fst (linear_system moved)) (snd (linear_system moved)) u' ->
  let r := sqrt (cx * cx + cy * cy + cz * cz - k) in
  sphere_fit lstsq points = Return ([cx; cy; cz], Finite r) /\
  sphere_fit lstsq moved = Return ([cx + dx; cy + dy; cz + dz], Finite r).
Proof.
  intros moved Hrank Hsolve Hls Hsolve' Hls' r.
  rewrite linear_system_closed_form in Hrank, Hls, Hls'.
  cbn [fst snd] in Hrank, Hls, Hls'.
  pose proof (full_column_rank_nonempty points Hrank) as Hne.
  pose proof (least_squares_radicand_nonneg points cx cy cz k Hne Hls) as Hrad.
  assert (Hu' : u' = translate_unknowns (dx, dy, dz) [cx; cy; cz; k]).
  { apply (least_squares_unique moved).
    - apply full_column_rank_translate, Hrank.
    - exact Hls'.
    - apply least_squares_translate, Hls. }
  subst u'. cbn [translate_unknowns] in Hsolve'.
  rewrite (sphere_fit_returned lstsq points cx cy cz k Hsolve).
  rewrite (sphere_fit_returned lstsq moved _ _ _ _ Hsolve').
  replace ((cx + dx) * (cx + dx) + (cy + dy) * (cy + dy) + (cz + dz) * (cz + dz)
           - (k + 2 * (cx * dx + cy * dy + cz * dz) + (dx * dx + dy * dy + dz * dz)))
    with (cx * cx + cy * cy + cz * cz - k) by ring.
  unfold np_sqrt.
  destruct (Rlt_dec _ _) as [Hneg|_]; [lra|]. split; reflexivity.
Qed.

(** X4.  On points whose matrix has full column rank, with a solver that
    answers a least-squares solution, rescaling every point by a factor
    s > 0 (a change of units) rescales the fit: the centre and the radius
    are multiplied by s. *)
Theorem sphere_fit_rescaling_covariant
    (lstsq : list (list R) -> list R -> result (list R))
    (points : list point) (s cx cy cz k : R) (u' : list R) :
  let scaled := map (rescale s) points in
  0 < s ->
  full_column_rank (fst (linear_system points)) ->
  lstsq (fst (linear_system points)) (snd (linear_system points))
  = Return [cx; cy; cz; k] ->
  least_squares (fst (linear_system points)) (snd (linear_system points))
    [cx; cy; cz; k] ->
  lstsq (fst (linear_system scaled)) (snd (linear_system scaled)) = Return u' ->
  least_squares (fst (linear_system scaled)) (snd (linear_system scaled)) u' ->
  let r := sqrt (cx * cx + cy * cy + cz * cz - k) in
  sphere_fit lstsq points = Return ([cx; cy; cz], Finite r) /\
  sphere_fit lstsq scaled = Return ([s * cx; s * cy; s * cz], Finite (s * r)).
Proof.
  intros scaled Hs Hrank Hsolve Hls Hsolve' Hls' r.
  rewrite linear_system_closed_form in Hrank, Hls, Hls'.
  cbn [fst snd] in Hrank, Hls, Hls'.
  assert (Hs0 : s <> 0) by lra.
  pose proof (full_column_rank_nonempty points Hrank) as Hne.
  pose proof (least_squares_radicand_nonneg points cx cy cz k Hne Hls) as Hrad.
  assert (Hu' : u' = rescale_unknowns s [cx; cy; cz; k]).
  { apply (least_squares_unique scaled).
    - apply full_column_rank_rescale; assumption.
    - exact Hls'.
    - apply least_squares_rescale; assumption. }
  subst u'. cbn [rescale_unknowns] in Hsolve'.
  rewrite (sphere_fit_returned lstsq points cx cy cz k Hsolve).
  rewrite (sphere_fit_returned lstsq scaled _ _ _ _ Hsolve').
  replace (s * cx * (s * cx) + s * cy * (s * cy) + s * cz * (s * cz) - s * s * k)
    with (s * s * (cx * cx + cy * cy + cz * cz - k)) by ring.
  fold r. set (rad := cx * cx + cy * cy + cz * cz - k) in *.
  assert (Hss : 0 <= s * s * rad) by (apply Rmult_le_pos; [nra | exact Hrad]).
  unfold np_sqrt.
  destruct (Rlt_dec rad 0) as [Hneg|_]; [lra|].
  destruct (Rlt_dec (s * s * rad) 0) as [Hneg|_]; [lra|].
  split; [reflexivity|]. do 3 f_equal.
  rewrite sqrt_mult by nra. rewrite sqrt_square by lra. reflexivity.
Qed.

(** X5.  Points that all lie in one plane leave the fit undetermined:
    the matrix has no full column rank, and from any least-squares
    solution another one with a different centre is obtained by sliding
    the centre along the normal of the plane. *)
Theorem coplanar_points_underdetermined (points : list point) (n : point) (d : R) :
  coplanar n d points ->
  ~ full_column_rank (fst (linear_system points)) /\
  (forall u t,
     least_squares (fst (linear_system points)) (snd (linear_system points)) u ->
     least_squares (fst (linear_system points)) (snd (linear_system points))
       (slide_unknowns n d t u)) /\
  (forall cx cy cz k t, t <> 0 ->
     take 3 (slide_unknowns n d t [cx; cy; cz; k]) <> [cx; cy; cz]).
Proof.
  intros [Hn Hplane]. rewrite !linear_system_closed_form. cbn [fst snd].
  destruct n as [[nx ny] nz]. split; [|split].
  - intros Hrank.
    assert (Hker : [nx; ny; nz; 2 * d] = [0; 0; 0; 0]).
    { apply Hrank; [reflexivity|].
      intros row Hrow. apply in_map_iff in Hrow. destruct Hrow as (p & <- & Hp).
      rewrite Forall_forall in Hplane.
      pose proof (Hplane p ltac:(apply list_elem_of_In; exact Hp)) as Hpd.
      destruct p as [[x y] z]. unfold inner in Hpd.
      unfold spec_row, dot, sum_R. cbn [combine map fold_right fst snd]. lra. }
    inversion Hker. apply Hn. congruence.
  - intros u t [Hu Hmin].
    destruct (four_components u Hu) as (cx & cy & cz & k & ->).
    split; [reflexivity|].
    intros u' Hu'.
    rewrite (slide_residual (nx, ny, nz) d t points [cx; cy; cz; k] eq_refl Hplane).
    apply Hmin, Hu'.
  - intros cx cy cz k t Ht Heq. cbn [slide_unknowns take] in Heq.
    inversion Heq as [[Hx Hy Hz]].
    assert (Hnx : t * nx = 0) by lra.
    assert (Hny : t * ny = 0) by lra.
    assert (Hnz : t * nz = 0) by lra.
    apply Rmult_integral in Hnx, Hny, Hnz.
    apply Hn. f_equal; [f_equal|]; tauto.
Qed.

End FitExtras.

Section FitExtrasWorkedInputs.

Import SphereFit PointSets.

(** On the ten points of the sphere of radius 5 the mean squared distance
    is 25. *)
Lemma sphere_fit_radius_is_rms_distance_witness :
  sphere_fit (answering [1; 2; 3; -11]) ten_points
  = Return ([1; 2; 3],
            Finite (sqrt (sum_R (map (dist2 (1, 2, 3)) ten_points)
                          / INR (length ten_points)))).
Proof.
  apply (sphere_fit_radius_is_rms_distance (answering [1; 2; 3; -11])
           ten_points 1 2 3 (-11)).
  - discriminate.
  - reflexivity.
  - rewrite linear_system_closed_form. apply ten_points_least_squares.
Defined.

(** The three points read backwards. *)
Lemma least_squares_order_independent_witness :
  least_squares (fst (linear_system three_points)) (snd (linear_system three_points))
    [2 / 7; 2 / 7; 2 / 7; -3 / 7] <->
  least_squares (fst (linear_system (rev three_points)))
    (snd (linear_system (rev three_points))) [2 / 7; 2 / 7; 2 / 7; -3 / 7].
Proof.
  apply (least_squares_order_independent three_points (rev three_points)).
  apply Permutation_rev.
Defined.

(** The ten points moved by one unit along x: centre (2,2,3), radius 5
    still. *)
Lemma sphere_fit_translation_covariant_witness :
  sphere_fit
    (answering_on (fst (linear_system ten_points)) [1; 2; 3; -11]
       (translate_unknowns (1, 0, 0) [1; 2; 3; -11]))
    (map (translate (1, 0, 0)) ten_points)
  = Return ([1 + 1; 2 + 0; 3 + 0], Finite (sqrt (1 * 1 + 2 * 2 + 3 * 3 - -11))).
Proof.
  apply (sphere_fit_translation_covariant
           (answering_on (fst (linear_system ten_points)) [1; 2; 3; -11]
              (translate_unknowns (1, 0, 0) [1; 2; 3; -11]))
           ten_points 1 0 0 1 2 3 (-11)
           (translate_unknowns (1, 0, 0) [1; 2; 3; -11])).
  - rewrite linear_system_closed_form. apply ten_points_full_rank.
  - unfold answering_on.
    destruct (List.list_eq_dec _ _ _) as [_|Hne];
      [reflexivity | exfalso; apply Hne; reflexivity].
  - rewrite linear_system_closed_form. apply ten_points_least_squares.
  - unfold answering_on.
    destruct (List.list_eq_dec _ _ _) as [Heq|_]; [exfalso|reflexivity].
    rewrite !linear_system_closed_form in Heq. cbn [fst] in Heq.
    apply (f_equal (fun A : list (list R) => nth 0 (nth 0 A []) 0)) in Heq.
    unfold ten_points in Heq. cbn [map translate spec_row nth] in Heq. lra.
  - rewrite linear_system_closed_form.
    apply least_squares_translate, ten_points_least_squares.
Defined.

(** The ten points measured in a unit twice as fine: centre (2,4,6),
    radius twice as large. *)
Lemma sphere_fit_rescaling_covariant_witness :
  sphere_fit
    (answering_on (fst (linear_system ten_points)) [1; 2; 3; -11]
       (rescale_unknowns 2 [1; 2; 3; -11]))
    (map (rescale 2) ten_points)
  = Return ([2 * 1; 2 * 2; 2 * 3],
            Finite (2 * sqrt (1 * 1 + 2 * 2 + 3 * 3 - -11))).
Proof.
  apply (sphere_fit_rescaling_covariant
           (answering_on (fst (linear_system ten_points)) [1; 2; 3; -11]
              (rescale_unknowns 2 [1; 2; 3; -11]))
           ten_points 2 1 2 3 (-11) (rescale_unknowns 2 [1; 2; 3; -11])).
  - lra.
  - rewrite linear_system_closed_form. apply ten_points_full_rank.
  - unfold answering_on.
    destruct (List.list_eq_dec _ _ _) as [_|Hne];
      [reflexivity | exfalso; apply Hne; reflexivity].
  - rewrite linear_system_closed_form. apply ten_points_least_squares.
  - unfold answering_on.
    destruct (List.list_eq_dec _ _ _) as [Heq|_]; [exfalso|reflexivity].
    rewrite !linear_system_closed_form in Heq. cbn [fst] in Heq.
    apply (f_equal (fun A : list (list R) => nth 0 (nth 0 A []) 0)) in Heq.
    unfold ten_points in Heq. cbn [map rescale spec_row nth] in Heq. lra.
  - rewrite linear_system_closed_form.
    apply least_squares_rescale; [lra | apply ten_points_least_squares].
Defined.

(** Four points of a circle in the plane z = 0. *)
Lemma coplanar_points_underdetermined_witness :
  ~ full_column_rank (fst (linear_system circle_points)).
Proof.
  apply (coplanar_points_underdetermined circle_points (0, 0, 1) 0).
  split.
  - intros H. inversion H. lra.
  - unfold circle_points. repeat constructor; unfold inner; lra.
Defined.

End FitExtrasWorkedInputs.

(** ** Part VII: more on the two searches *)

Section SearchExtrasFacts.

Import Registration.

Variable metric_value : nat -> Euler3DTransform -> R.

(** The exhaustive walk for any evaluator: it evaluates the initial
    position and then the vertices in order, and its minimum is one of the
    evaluations, at most every value seen. *)
Lemma exhaustive_walk_log (t : Euler3DTransform) (vertices : list (list R)) :
  let st := snd (exhaustive_walk metric_value t vertices) in
  map fst (metric_calls st) = t :: map (SetParameters t) vertices /\
  In (SetParameters t (fst (minimum st)), snd (minimum st)) (metric_calls st) /\
  Forall (fun e : Euler3DTransform * R => snd (minimum st) <= snd e)
         (metric_calls st).
Proof.
  unfold exhaustive_walk, MetricEvaluate. cbn [snd].
  induction vertices as [|q vertices IH] using rev_ind.
  - cbn [fold_left minimum metric_calls fst snd app map length].
    rewrite SetParameters_GetParameters.
    split; [reflexivity|]. split; [left; reflexivity|].
    constructor; [cbn [snd]; apply Rle_refl | constructor].
  - cbv zeta in *. rewrite fold_left_app. cbn [fold_left].
    set (st := fold_left _ vertices _) in *.
    destruct IH as (Hlog & Hev & Hle).
    unfold exhaustive_visit, MetricEvaluate.
    set (v := metric_value (length (metric_calls st)) (SetParameters t q)).
    assert (Hlog' : map fst (metric_calls st ++ [(SetParameters t q, v)])
                    = t :: map (SetParameters t) (vertices ++ [q]))
      by (rewrite !map_app, Hlog; reflexivity).
    destruct (Rlt_dec v (snd (minimum st))) as [Hlt|Hge];
      cbn [minimum metric_calls fst snd]; (split; [exact Hlog'|]).
    + split; [apply in_or_app; right; left; reflexivity|].
      apply Forall_app; split.
      * eapply Forall_impl; [exact Hle|]. cbv beta. intros e He. lra.
      * constructor; [cbn [snd]; lra | constructor].
    + split; [apply in_or_app; left; exact Hev|].
      apply Forall_app; split; [exact Hle|].
      constructor; [cbn [snd]; lra | constructor].
Qed.

End SearchExtrasFacts.

Section SearchExtras.

Import Registration.

(** X6.  With a metric that gives every transform one fixed value, the
    best similarity value found by the MetricEvaluate loop does not depend
    on the order in which the dictionary yields its items. *)
Theorem search_value_order_independent (surface : Euler3DTransform -> R)
    (geometry_translation geometry_center : vector3)
    (catalogue catalogue' : list (string * angles)) :
  Permutation catalogue catalogue' ->
  snd (orientation_search (fun _ => surface) geometry_translation geometry_center
         catalogue)
  = snd (orientation_search (fun _ => surface) geometry_translation geometry_center
           catalogue').
Proof.
  intros Hperm. unfold orientation_search. cbn [snd].
  assert (Hsame : Permutation ((0, 0, 0) :: map snd catalogue)
                              ((0, 0, 0) :: map snd catalogue'))
    by (apply perm_skip, Permutation_map, Hperm).
  destruct (search_loop_argmin surface geometry_translation geometry_center
              catalogue) as (Hin & Hval & Hmin).
  destruct (search_loop_argmin surface geometry_translation geometry_center
              catalogue') as (Hin' & Hval' & Hmin').
  apply Rle_antisym.
  - rewrite Hval'. apply Hmin.
    apply (Permutation_in _ (Permutation_sym Hsame)), Hin'.
  - rewrite Hval. apply Hmin'.
    apply (Permutation_in _ Hsame), Hin.
Qed.

(** X7.  When one evaluated orientation has a value strictly smaller than
    every other one, the loop returns it whatever the order of the
    items: the whole result is the same for any two orders. *)
Theorem search_winner_order_independent (surface : Euler3DTransform -> R)
    (geometry_translation geometry_center : vector3)
    (catalogue catalogue' : list (string * angles)) (winner : angles) :
  let t0 := CenteredTransformInitializer geometry_translation geometry_center
              Euler3DTransform_default in
  Permutation catalogue catalogue' ->
  In winner ((0, 0, 0) :: map snd catalogue) ->
  (forall o, In o ((0, 0, 0) :: map snd catalogue) -> o <> winner ->
             surface (SetRotation t0 winner) < surface (SetRotation t0 o)) ->
  orientation_search (fun _ => surface) geometry_translation geometry_center
    catalogue
  = (SetRotation t0 winner, winner, surface (SetRotation t0 winner)) /\
  orientation_search (fun _ => surface) geometry_translation geometry_center
    catalogue'
  = (SetRotation t0 winner, winner, surface (SetRotation t0 winner)).
Proof.
  intros t0 Hperm Hwin Huniq.
  assert (Hsame : Permutation ((0, 0, 0) :: map snd catalogue)
                              ((0, 0, 0) :: map snd catalogue'))
    by (apply perm_skip, Permutation_map, Hperm).
  assert (Hany : forall cat,
             Permutation ((0, 0, 0) :: map snd catalogue) ((0, 0, 0) :: map snd cat) ->
             orientation_search (fun _ => surface) geometry_translation
               geometry_center cat
             = (SetRotation t0 winner, winner, surface (SetRotation t0 winner))).
  { intros cat Hcat. unfold orientation_search.
    destruct (search_loop_argmin surface geometry_translation geometry_center cat)
      as (Hin & Hval & Hmin).
    destruct (search_loop_frame (fun _ => surface) geometry_translation
                geometry_center cat) as (Ht & Hc).
    set (st := search_loop _ _ _ cat) in *.
    assert (Hb : best_orientation st = winner).
    { destruct (angles_eq_dec (best_orientation st) winner) as [Heq|Hne];
        [exact Heq|exfalso].
      apply (Permutation_in _ (Permutation_sym Hcat)) in Hin.
      specialize (Huniq _ Hin Hne).
      specialize (Hmin winner (Permutation_in _ Hcat Hwin)).
      fold t0 in Hval, Hmin. lra. }
    rewrite Hval, Hb. f_equal. f_equal.
    apply SetRotation_frame; [exact Ht | exact Hc]. }
  split; apply Hany; [apply Permutation_refl | exact Hsame].
Qed.

(** X8.  Every orientation of the dictionary, and the identity, is a
    vertex of the exhaustive grid; so with a metric that gives every
    transform one fixed value, the value at the transform the exhaustive
    search ends on is never greater than the best value of the
    MetricEvaluate loop, over any selection of dictionary entries. *)
Theorem exhaustive_never_worse_than_metric_evaluate
    (surface : Euler3DTransform -> R)
    (geometry_translation geometry_center : vector3)
    (catalogue : list (string * angles)) :
  (forall item, In item catalogue -> In (snd item) (map snd all_orientations)) ->
  surface (fst (exhaustive_search (fun _ => surface) geometry_translation
                  geometry_center))
  <= snd (orientation_search (fun _ => surface) geometry_translation
            geometry_center catalogue).
Proof.
  intros Hsub.
  unfold orientation_search, exhaustive_search, exhaustive_walk, MetricEvaluate.
  cbn [fst snd].
  set (t0 := CenteredTransformInitializer geometry_translation geometry_center
               Euler3DTransform_default).
  destruct (search_loop_argmin surface geometry_translation geometry_center
              catalogue) as (Hin & Hval & _).
  fold t0 in Hval. rewrite Hval.
  assert (Hcat : In (best_orientation
                       (search_loop (fun _ => surface) geometry_translation
                          geometry_center catalogue))
                    ((0, 0, 0) :: map snd all_orientations)).
  { destruct Hin as [Hid|Hin]; [left; exact Hid|right].
    apply in_map_iff in Hin. destruct Hin as (item & <- & Hitem).
    apply Hsub, Hitem. }
  destruct (catalogue_on_grid geometry_translation geometry_center _ Hcat)
    as (p & Hp & Hpeq).
  fold t0 in Hp, Hpeq. rewrite <- Hpeq.
  pose proof (exhaustive_walk_argmin surface t0 (exhaustive_grid t0)) as Hwalk.
  cbv zeta in Hwalk. unfold exhaustive_walk, MetricEvaluate in Hwalk.
  cbn [fst snd] in Hwalk.
  destruct Hwalk as (_ & Hv & _ & Hmin). rewrite <- Hv. apply Hmin, Hp.
Qed.

(** X9.  For every evaluator, every evaluation the exhaustive search of
    the cell makes is at a transform with the translation and centre of
    the initial transform, with angle_y = 0, angle_x one of -pi, 0, pi and
    angle_z one of -pi, -pi/2, 0, pi/2, pi; and the search ends on one of
    the transforms evaluated, one whose value was at most every value it
    saw. *)
Theorem exhaustive_search_frame (metric_value : nat -> Euler3DTransform -> R)
    (geometry_translation geometry_center : vector3) :
  let '(final_transform, st) :=
    exhaustive_search metric_value geometry_translation geometry_center in
  Forall (fun e : Euler3DTransform * R =>
            translation (fst e) = geometry_translation /\
            center (fst e) = geometry_center /\
            snd (fst (rotation (fst e))) = 0 /\
            In (fst (fst (rotation (fst e)))) [- PI; 0; PI] /\
            In (snd (rotation (fst e))) [- PI; - PI / 2; 0; PI / 2; PI])
         (metric_calls st) /\
  exists v, In (final_transform, v) (metric_calls st) /\
            Forall (fun e : Euler3DTransform * R => v <= snd e) (metric_calls st).
Proof.
  unfold exhaustive_search.
  set (t0 := CenteredTransformInitializer geometry_translation geometry_center
               Euler3DTransform_default).
  destruct (exhaustive_walk_log metric_value t0 (exhaustive_grid t0))
    as (Hlog & Hev & Hle).
  assert (Hfinal : fst (exhaustive_walk metric_value t0 (exhaustive_grid t0))
                   = SetParameters t0
                       (fst (minimum (snd (exhaustive_walk metric_value t0
                                             (exhaustive_grid t0))))))
    by reflexivity.
  destruct (exhaustive_walk metric_value t0 (exhaustive_grid t0))
    as [final_transform st].
  cbn [fst snd] in Hlog, Hev, Hle, Hfinal.
  assert (Hgrid : exists tx ty tz,
             geometry_translation = (tx, ty, tz) /\
             exhaustive_grid t0
             = map (fun xz : R * R => [fst xz; 0; snd xz; tx; ty; tz])
                 [ (- PI, - PI);     (0, - PI);     (PI, - PI);
                   (- PI, - PI / 2); (0, - PI / 2); (PI, - PI / 2);
                   (- PI, 0);        (0, 0);        (PI, 0);
                   (- PI, PI / 2);   (0, PI / 2);   (PI, PI / 2);
                   (- PI, PI);       (0, PI);       (PI, PI) ]).
  { unfold t0. destruct geometry_translation as [[tx ty] tz].
    exists tx, ty, tz. split; [reflexivity|].
    apply exhaustive_grid_vertices. }
  destruct Hgrid as (tx & ty & tz & Hgt & Hgrid).
  split.
  - assert (Hts : Forall (fun t : Euler3DTransform =>
                            translation t = geometry_translation /\
                            center t = geometry_center /\
                            snd (fst (rotation t)) = 0 /\
                            In (fst (fst (rotation t))) [- PI; 0; PI] /\
                            In (snd (rotation t)) [- PI; - PI / 2; 0; PI / 2; PI])
                         (map fst (metric_calls st))).
    { rewrite Hlog, Hgrid, map_map.
      constructor.
      - unfold t0. cbn. repeat split; tauto.
      - rewrite Hgt.
        apply Forall_forall. intros t Ht.
        apply list_elem_of_In, in_map_iff in Ht.
        destruct Ht as ([x z] & <- & Hxz).
        cbn [SetParameters fst snd translation center rotation].
        unfold t0. rewrite Hgt.
        split; [reflexivity|]. split; [reflexivity|]. split; [reflexivity|].
        simpl in Hxz.
        repeat (destruct Hxz as [Hxz|Hxz];
                [inversion Hxz; subst x z; split; simpl; tauto|]).
        contradiction. }
    apply Forall_forall. intros e He.
    rewrite Forall_forall in Hts. apply Hts.
    apply list_elem_of_In, in_map, list_elem_of_In, He.
  - exists (snd (minimum st)). rewrite Hfinal. split; assumption.
Qed.

End SearchExtras.

Section SearchExtrasWorkedInputs.

Import Registration.

(** The dictionary read in literal order and backwards. *)
Lemma search_value_order_independent_witness :
  snd (orientation_search (fun _ => falling_surface) (0, 0, 0) (0, 0, 0)
         all_orientations)
  = snd (orientation_search (fun _ => falling_surface) (0, 0, 0) (0, 0, 0)
           (rev all_orientations)).
Proof.
  apply (search_value_order_independent falling_surface (0, 0, 0) (0, 0, 0)
           all_orientations (rev all_orientations)).
  apply Permutation_rev.
Defined.

(** The falling surface is least at (pi, 0, pi) only. *)
Lemma search_winner_order_independent_witness :
  let t0 := CenteredTransformInitializer (0, 0, 0) (0, 0, 0)
              Euler3DTransform_default in
  orientation_search (fun _ => falling_surface) (0, 0, 0) (0, 0, 0)
    (rev all_orientations)
  = (SetRotation t0 (PI, 0, PI), (PI, 0, PI),
     falling_surface (SetRotation t0 (PI, 0, PI))).
Proof.
  pose proof PI_RGT_0 as Hpi.
  apply (search_winner_order_independent falling_surface (0, 0, 0) (0, 0, 0)
           all_orientations (rev all_orientations) (PI, 0, PI)).
  - apply Permutation_rev.
  - simpl. tauto.
  - intros o Ho Hne. simpl in Ho.
    repeat (destruct Ho as [Ho|Ho];
            [subst o; unfold falling_surface; simpl; try lra;
             exfalso; apply Hne; reflexivity|]).
    contradiction.
Defined.

(** The whole dictionary is a selection of its entries. *)
Lemma exhaustive_never_worse_than_metric_evaluate_witness :
  falling_surface (fst (exhaustive_search (fun _ => falling_surface)
                          (0, 0, 0) (0, 0, 0)))
  <= snd (orientation_search (fun _ => falling_surface) (0, 0, 0) (0, 0, 0)
            all_orientations).
Proof.
  apply (exhaustive_never_worse_than_metric_evaluate falling_surface
           (0, 0, 0) (0, 0, 0) all_orientations).
  intros item Hitem. apply in_map, Hitem.
Defined.

End SearchExtrasWorkedInputs.

(** ** Part VIII: the display helpers *)

Section DisplayFacts.

Import SphereFit Display.

Lemma in_3_4_spec (c : nat) : in_3_4 c = true <-> c = 3%nat \/ c = 4%nat.
Proof.
  unfold in_3_4. rewrite orb_true_iff, !Nat.eqb_eq. reflexivity.
Qed.

Lemma mid_slice_nonempty (n : nat) (rest : list nat) :
  (0 < n)%nat -> mid_slice (n :: rest) = Return (Some (n / 2)%nat, rest).
Proof.
  intros Hn. unfold mid_slice.
  assert (H : (n / 2 <? n)%nat = true)
    by (apply Nat.ltb_lt, Nat.div_lt; lia).
  now rewrite H.
Qed.

Lemma mid_slice_returns (shape nda : list nat) (cut : option nat) :
  mid_slice shape = Return (cut, nda) ->
  exists n, shape = n :: nda /\ cut = Some (n / 2)%nat.
Proof.
  destruct shape as [|n rest]; [discriminate|]. unfold mid_slice.
  destruct (n / 2 <? n)%nat; [|discriminate].
  intros H. inversion H. now exists n.
Qed.

(** What [myshow] reports about the array it settled on. *)
Lemma myshow_returns (shape : list nat) (spacing : list R) (title : option string)
    (margin dpi : R) (fig : figure) :
  myshow shape spacing title margin dpi = Return fig ->
  select_array shape = Return (shown_slice fig, shown_shape fig) /\
  cmap_gray fig = (length (shown_shape fig) =? 2)%nat.
Proof.
  unfold myshow. destruct (select_array shape) as [[cut nda]|e]; [|discriminate].
  destruct (nda !! 0%nat); [|discriminate].
  destruct (nda !! 1%nat); [|discriminate].
  destruct (Req_EM_T dpi 0); [discriminate|].
  destruct (spacing !! 1%nat); [|discriminate].
  destruct (spacing !! 0%nat); [|discriminate].
  intros H. inversion H. split; reflexivity.
Qed.

End DisplayFacts.

Section DisplayExtras.

Import SphereFit Display.

(** X10.  For the arrays images give (2 to 4 axes), whenever [myshow]
    gets as far as [imshow] the array it hands over is either 2-D, and
    then (and only then) the gray colour map is set, or 3-D with 3 or 4
    components in its last axis. *)
Theorem myshow_hands_over_gray_or_colour (shape : list nat) (spacing : list R)
    (title : option string) (margin dpi : R) (fig : figure) :
  (2 <= length shape <= 4)%nat ->
  myshow shape spacing title margin dpi = Return fig ->
  (length (shown_shape fig) = 2%nat /\ cmap_gray fig = true) \/
  (length (shown_shape fig) = 3%nat /\
   in_3_4 (List.last (shown_shape fig) 0%nat) = true /\
   cmap_gray fig = false).
Proof.
  intros Hdim Hshow.
  destruct (myshow_returns _ _ _ _ _ _ Hshow) as [Hsel Hgray].
  rewrite Hgray. clear Hshow Hgray.
  destruct shape as [|a [|b [|c [|d [|e rest]]]]]; cbn [length] in Hdim; try lia.
  - inversion Hsel. left. split; reflexivity.
  - unfold select_array in Hsel. cbn [length] in Hsel.
    destruct (in_3_4 (List.last [a; b; c] 0%nat)) eqn:Hc.
    + inversion Hsel. right. repeat split; [exact Hc].
    + apply mid_slice_returns in Hsel. destruct Hsel as (n & Hn & _).
      inversion Hn. left. split; reflexivity.
  - unfold select_array in Hsel. cbn [length] in Hsel.
    destruct (in_3_4 (List.last [a; b; c; d] 0%nat)) eqn:Hc; [|discriminate].
    apply mid_slice_returns in Hsel. destruct Hsel as (n & Hn & _).
    inversion Hn. right. repeat split. exact Hc.
Qed.

(** X11.  A 3-D image with a number of components other than 3 or 4 (an
    array of 4 axes) makes [myshow] raise a NameError, whatever the other
    arguments: the name [Runtime] it tries to raise does not exist. *)
Theorem myshow_vector_volume_raises_name_error (shape : list nat)
    (spacing : list R) (title : option string) (margin dpi : R) :
  length shape = 4%nat ->
  in_3_4 (List.last shape 0%nat) = false ->
  myshow shape spacing title margin dpi = Raise "NameError".
Proof.
  intros Hlen Hc. unfold myshow, select_array. rewrite Hlen, Hc. reflexivity.
Qed.

(** X12.  Whenever [myshow] gets as far as [imshow] on a scalar volume
    of size (x, y, z), what it hands over is the z-slice of index z//2,
    of y rows and x columns, in gray; unless the x size is 3 or 4: then
    no slice is cut and the whole array is handed over as a colour image
    of z rows and y columns. *)
Theorem myshow_scalar_volume (x y z : nat) (spacing : list R)
    (title : option string) (margin dpi : R) (fig : figure) :
  myshow (array_shape [x; y; z] 1) spacing title margin dpi = Return fig ->
  shown_slice fig = (if in_3_4 x then None else Some (z / 2)%nat) /\
  shown_shape fig = (if in_3_4 x then [z; y; x] else [y; x]) /\
  cmap_gray fig = negb (in_3_4 x).
Proof.
  intros Hshow.
  destruct (myshow_returns _ _ _ _ _ _ Hshow) as [Hsel Hgray].
  rewrite Hgray. clear Hshow Hgray.
  unfold array_shape, select_array in Hsel.
  cbn [rev app Nat.eqb length List.last] in Hsel.
  destruct (in_3_4 x) eqn:Hx.
  - inversion Hsel as [[Hcut Hshape]]. repeat split; reflexivity.
  - destruct (mid_slice_returns _ _ _ Hsel) as (n & Hn & Hcut).
    inversion Hn as [[Hz Hshape]]. rewrite Hcut.
    repeat split; reflexivity.
Qed.

End DisplayExtras.

Section TileFacts.

Import Display.

Context {Image : Type}.

Lemma lookup_repeat (a : Image) (n i : nat) :
  (i < n)%nat -> repeat a n !! i = Some a.
Proof.
  revert i. induction n as [|n IH]; intros i Hi; [lia|].
  destruct i as [|i]; [reflexivity|]. cbn [repeat]. apply IH. lia.
Qed.

Lemma padded_length (slices : list Image) (img_null : Image) (maxlen : nat) :
  (length slices <= maxlen)%nat -> length (padded Image slices img_null maxlen) = maxlen.
Proof.
  intros Hle. unfold padded. rewrite length_app, repeat_length. lia.
Qed.

Lemma padded_lookup (slices : list Image) (img_null : Image) (maxlen j : nat) :
  (length slices <= maxlen)%nat -> (j < maxlen)%nat ->
  padded Image slices img_null maxlen !! j
  = Some (match slices !! j with Some s => s | None => img_null end).
Proof.
  intros Hle Hj. unfold padded.
  destruct (Nat.lt_ge_cases j (length slices)) as [Hin|Hout].
  - rewrite lookup_app_l by exact Hin.
    destruct (lookup_lt_is_Some_2 slices j Hin) as [s Hs]. now rewrite Hs.
  - rewrite lookup_app_r by exact Hout.
    rewrite (lookup_ge_None_2 slices j Hout).
    apply lookup_repeat. lia.
Qed.

End TileFacts.

Section TileExtras.

Import Display.

Variable Image : Type.
Variables slice_x slice_y slice_z : Image -> Z -> Image.
Variable null_image : Image -> Image.

(** X13.  The list [myshow3d] hands to Tile fills the layout [maxlen, d]
    exactly: it has maxlen * d images, where d, at most 3, counts the
    axes for which slices were asked; and maxlen is 0 exactly when no
    slice was asked at all. *)
Theorem myshow3d_fills_layout (img : Image) (xslices yslices zslices : list Z) :
  let '(img_slices, maxlen, d) :=
    myshow3d_slices Image slice_x slice_y slice_z null_image img
      xslices yslices zslices in
  length img_slices = (maxlen * d)%nat /\
  d = (match xslices with [] => 0 | _ => 1 end
       + match yslices with [] => 0 | _ => 1 end
       + match zslices with [] => 0 | _ => 1 end)%nat /\
  (d <= 3)%nat /\
  (maxlen = 0%nat <-> xslices = [] /\ yslices = [] /\ zslices = []).
Proof.
  unfold myshow3d_slices, add_row. rewrite !length_map.
  set (maxlen := Nat.max (length xslices)
                   (Nat.max (length yslices) (length zslices))).
  assert (Hx : (length xslices <= maxlen)%nat) by (unfold maxlen; lia).
  assert (Hy : (length yslices <= maxlen)%nat) by (unfold maxlen; lia).
  assert (Hz : (length zslices <= maxlen)%nat) by (unfold maxlen; lia).
  assert (Hpx := padded_length (map (slice_x img) xslices) (null_image img) maxlen).
  assert (Hpy := padded_length (map (slice_y img) yslices) (null_image img) maxlen).
  assert (Hpz := padded_length (map (slice_z img) zslices) (null_image img) maxlen).
  rewrite length_map in Hpx, Hpy, Hpz.
  specialize (Hpx Hx). specialize (Hpy Hy). specialize (Hpz Hz).
  destruct xslices as [|x xs], yslices as [|y ys], zslices as [|z zs];
    cbn [length Nat.eqb] in *; rewrite ?length_app, ?Hpx, ?Hpy, ?Hpz;
    cbn [length app];
    (split; [lia|]); (split; [reflexivity|]); (split; [lia|]);
    (split; [intros H0; try lia; repeat split; reflexivity
            |intros (H1 & H2 & H3); try discriminate; reflexivity]).
Qed.

(** X14.  Each axis with slices gets one row of the layout, in the order
    x, y, z and skipping the axes without slices: column j of the row
    holds the j-th slice asked along that axis, or the empty image when
    the axis has fewer than j+1 slices. *)
Theorem myshow3d_rows (img : Image) (xslices yslices zslices : list Z) (j : nat) :
  let '(img_slices, maxlen, _) :=
    myshow3d_slices Image slice_x slice_y slice_z null_image img
      xslices yslices zslices in
  let cell (slice : Image -> Z -> Image) (slices : list Z) :=
    Some (match slices !! j with
          | Some s => slice img s
          | None => null_image img
          end) in
  let row_y := match xslices with [] => 0%nat | _ => 1%nat end in
  let row_z := (row_y + match yslices with [] => 0 | _ => 1 end)%nat in
  (j < maxlen)%nat ->
  (xslices <> [] -> img_slices !! j = cell slice_x xslices) /\
  (yslices <> [] -> img_slices !! (row_y * maxlen + j)%nat = cell slice_y yslices) /\
  (zslices <> [] -> img_slices !! (row_z * maxlen + j)%nat = cell slice_z zslices).
Proof.
  assert (Hcell : forall (slice : Image -> Z -> Image) (slices : list Z) maxlen,
             (length slices <= maxlen)%nat -> (j < maxlen)%nat ->
             padded Image (map (slice img) slices) (null_image img) maxlen !! j
             = Some (match slices !! j with
                     | Some s => slice img s
                     | None => null_image img
                     end)).
  { intros slice slices maxlen Hle Hj.
    rewrite padded_lookup by (rewrite ?length_map; assumption).
    rewrite list_lookup_fmap. destruct (slices !! j); reflexivity. }
  assert (Hlen : forall (slice : Image -> Z -> Image) (slices : list Z) maxlen,
             (length slices <= maxlen)%nat ->
             length (padded Image (map (slice img) slices) (null_image img) maxlen)
             = maxlen).
  { intros slice slices maxlen Hle. apply padded_length. now rewrite length_map. }
  unfold myshow3d_slices, add_row. rewrite !length_map.
  set (maxlen := Nat.max (length xslices)
                   (Nat.max (length yslices) (length zslices))).
  assert (Hx : (length xslices <= maxlen)%nat) by (unfold maxlen; lia).
  assert (Hy : (length yslices <= maxlen)%nat) by (unfold maxlen; lia).
  assert (Hz : (length zslices <= maxlen)%nat) by (unfold maxlen; lia).
  pose proof (Hlen slice_x xslices maxlen Hx) as Hlx.
  pose proof (Hlen slice_y yslices maxlen Hy) as Hly.
  clearbody maxlen.
  destruct xslices as [|x xs], yslices as [|y ys], zslices as [|z zs];
    cbn [length Nat.eqb app Nat.mul Nat.add]; intros Hj;
    rewrite ?Nat.add_0_r;
    (split; [|split]); intros Hne; try contradiction;
    repeat first
      [ rewrite lookup_app_l by (rewrite ?length_app, ?Hlx, ?Hly; lia)
      | rewrite lookup_app_r by (rewrite ?length_app, ?Hlx, ?Hly; lia) ];
    rewrite ?length_app, ?Hlx, ?Hly;
    match goal with
    | |- ?l !! ?i = _ => replace i with j by lia
    end;
    apply Hcell; assumption.
Qed.

End TileExtras.

Section RangeExtras.

Import SphereFit Display.

Open Scope Z_scope.

(** The entries of a range with a positive step lie in [start, stop). *)
Lemma py_range_bounds (start stop step : Z) (l : list Z) :
  0 < step -> py_range start stop step = Return l ->
  (Z.of_nat (length l) = Z.max 0 ((stop - start + step - 1) / step)) /\
  forall s, In s l -> start <= s < stop.
Proof.
  intros Hstep. unfold py_range, range_length.
  destruct (step =? 0) eqn:E0; [apply Z.eqb_eq in E0; lia|].
  assert (Hpos : (0 <? step) = true) by (apply Z.ltb_lt; exact Hstep).
  rewrite Hpos. intros H. inversion H as [Hl]. clear H Hl.
  set (n := (stop - start + step - 1) / step).
  split.
  - rewrite length_map, length_seq. lia.
  - intros s Hs. apply in_map_iff in Hs. destruct Hs as (i & <- & Hi).
    apply in_seq in Hi.
    assert (Hn : Z.of_nat i < n) by lia.
    assert (Hmul : step * n <= stop - start + step - 1)
      by (apply Z.mul_div_le; exact Hstep).
    nia.
Qed.

(** X15.  In the cell of the five slices the step of the range is
    size[0] // (nslices + 1): a volume with fewer than nslices + 1
    voxels along x makes it 0, and the range raises a ValueError. *)
Theorem slice_positions_thin_volume_raises (size0 size2 nslices : Z) :
  0 <= size0 < nslices + 1 ->
  slice_positions size0 size2 nslices = Raise "ValueError".
Proof.
  intros Hsize. unfold slice_positions, py_range.
  rewrite Z.div_small by exact Hsize. reflexivity.
Qed.

(** X16.  When the volume has at least nslices + 1 voxels along x and is
    at least as deep along z, the cell cuts at least nslices + 1 slices,
    more than the nslices its name announces, and every position is a
    valid z index. *)
Theorem slice_positions_more_than_announced (size0 size2 nslices : Z) :
  0 <= nslices -> nslices + 1 <= size0 -> size0 <= size2 ->
  exists l,
    slice_positions size0 size2 nslices = Return l /\
    nslices + 1 <= Z.of_nat (length l) /\
    forall s, In s l -> 0 <= s < size2.
Proof.
  intros Hn Hsize0 Hsize2.
  set (step := size0 / (nslices + 1)).
  assert (Hstep : 0 < step).
  { unfold step. apply Z.div_str_pos. lia. }
  assert (Hmul : (nslices + 1) * step <= size0)
    by (unfold step; apply Z.mul_div_le; lia).
  destruct (py_range 0 size2 step) as [l|e] eqn:Hrange.
  - exists l. split; [exact Hrange|].
    destruct (py_range_bounds 0 size2 step l Hstep Hrange) as [Hlen Hin].
    split; [|exact Hin].
    rewrite Hlen.
    assert (Hdiv : (nslices + 1) <= (size2 - 0 + step - 1) / step).
    { apply Z.div_le_lower_bound; [exact Hstep|]. lia. }
    lia.
  - unfold py_range in Hrange.
    destruct (step =? 0) eqn:E0; [apply Z.eqb_eq in E0; lia|discriminate].
Qed.

End RangeExtras.

Section RangeWorkedInputs.

Import SphereFit Display.

(** A volume of 4 voxels along x. *)
Lemma slice_positions_thin_volume_raises_witness :
  slice_positions 4 100 5 = Raise "ValueError".
Proof.
  apply (slice_positions_thin_volume_raises 4 100 5). lia.
Defined.

(** A cube of 256 voxels: the step is 42 and 7 slices are cut. *)
Lemma slice_positions_more_than_announced_witness :
  exists l,
    slice_positions 256 256 5 = Return l /\
    (5 + 1 <= Z.of_nat (length l))%Z /\
    forall s, In s l -> (0 <= s < 256)%Z.
Proof.
  apply (slice_positions_more_than_announced 256 256 5); lia.
Defined.

(** A volume of 10 x 20 x 30 voxels: slice 15 of its 30. *)
Lemma myshow_scalar_volume_witness :
  exists fig,
    myshow (array_shape [10; 20; 30]%nat 1) [1; 1; 1] None 0.05 80 = Return fig /\
    shown_slice fig = Some 15%nat /\
    shown_shape fig = [20; 10]%nat /\
    cmap_gray fig = true.
Proof.
  assert (Hdpi : (80 : R) <> 0) by lra.
  assert (Hfig : exists fig,
             myshow (array_shape [10; 20; 30]%nat 1) [1; 1; 1] None 0.05 80
             = Return fig).
  { unfold myshow.
    cbn [array_shape rev app Nat.eqb select_array length List.last in_3_4 orb].
    rewrite mid_slice_nonempty by lia. cbn [lookup list_lookup].
    destruct (Req_EM_T 80 0) as [H0|_]; [contradiction|]. eexists. reflexivity. }
  destruct Hfig as [fig Hfig]. exists fig. split; [exact Hfig|].
  exact (myshow_scalar_volume 10 20 30 [1; 1; 1] None 0.05 80 fig Hfig).
Defined.

(** A volume of vectors with two components. *)
Lemma myshow_vector_volume_raises_name_error_witness :
  myshow (array_shape [10; 20; 30]%nat 2) [1; 1; 1] None 0.05 80 = Raise "NameError".
Proof.
  apply (myshow_vector_volume_raises_name_error
           (array_shape [10; 20; 30]%nat 2) [1; 1; 1] None 0.05 80);
    reflexivity.
Defined.

(** A colour image of 20 x 10 pixels. *)
Lemma myshow_hands_over_gray_or_colour_witness :
  exists fig,
    myshow (array_shape [20; 10]%nat 3) [1; 1] None 0.05 80 = Return fig /\
    ((length (shown_shape fig) = 2%nat /\ cmap_gray fig = true) \/
     (length (shown_shape fig) = 3%nat /\
      in_3_4 (List.last (shown_shape fig) 0%nat) = true /\
      cmap_gray fig = false)).
Proof.
  assert (Hdpi : (80 : R) <> 0) by lra.
  assert (Hfig : exists fig,
             myshow (array_shape [20; 10]%nat 3) [1; 1] None 0.05 80 = Return fig).
  { unfold myshow.
    cbn [array_shape rev app Nat.eqb select_array length lookup list_lookup].
    destruct (Req_EM_T 80 0) as [H0|_]; [contradiction|]. eexists. reflexivity. }
  destruct Hfig as [fig Hfig]. exists fig. split; [exact Hfig|].
  apply (myshow_hands_over_gray_or_colour
           (array_shape [20; 10]%nat 3) [1; 1] None 0.05 80 fig).
  - simpl. lia.
  - exact Hfig.
Defined.

End RangeWorkedInputs.

(** ** Part IX: the region of interest *)

Section RoiFacts.

Import SphereFit Roi.

(** A loop of painters is a painter: it needs every step to be allowed
    and paints the union of the areas. *)
Lemma painter_for_each {A : Type} (body : image -> A -> result image)
    (ok : A -> nat * nat * nat -> bool) (area : A -> nat -> nat -> nat -> bool)
    (l : list A) :
  (forall a, painter (fun m => body m a) (ok a) (area a)) ->
  painter (for_each l body)
          (fun sz => forallb (fun a => ok a sz) l)
          (fun x y z => existsb (fun a => area a x y z) l).
Proof.
  intros Hbody. induction l as [|a l IH]; intros m.
  - split; [|discriminate]. intros _. exists m. repeat split; reflexivity.
  - cbn [for_each forallb existsb].
    destruct (Hbody a m) as [Hok Hbad]. destruct (ok a (size m)) eqn:Ea.
    + destruct (Hok eq_refl) as (m1 & Hm1 & Hsz1 & Hpx1). rewrite Hm1.
      destruct (IH m1) as [Hok' Hbad']. rewrite Hsz1 in Hok', Hbad'.
      split.
      * intros Hall. cbn [andb] in Hall.
        destruct (Hok' Hall) as (m2 & Hm2 & Hsz2 & Hpx2).
        exists m2. split; [exact Hm2|]. split; [congruence|].
        intros x y z. rewrite Hpx2, Hpx1.
        destruct (area a x y z), (existsb (fun a0 => area a0 x y z) l); reflexivity.
      * intros Hall. cbn [andb] in Hall. apply Hbad', Hall.
    + split; [discriminate|]. intros _. rewrite (Hbad eq_refl). reflexivity.
Qed.

Lemma set_pixel_painter (x y z : nat) :
  painter (fun m => set_pixel m x y z mask_value)
          (fun sz => let '(sx, sy, sz) := sz in
                     ((x <? sx) && (y <? sy) && (z <? sz))%nat)
          (fun x' y' z' => ((x' =? x) && (y' =? y) && (z' =? z))%nat).
Proof.
  intros m. unfold set_pixel, in_bounds. destruct (size m) as [[sx sy] sz].
  destruct ((x <? sx) && (y <? sy) && (z <? sz))%nat.
  - split; [|discriminate]. intros _. eexists. repeat split; reflexivity.
  - split; [discriminate|reflexivity].
Qed.

Lemma painter_ext (f : image -> result image) (ok ok' : nat * nat * nat -> bool)
    (area area' : nat -> nat -> nat -> bool) :
  (forall sz, ok sz = ok' sz) -> (forall x y z, area x y z = area' x y z) ->
  painter f ok area -> painter f ok' area'.
Proof.
  intros Hok Harea Hp m. destruct (Hp m) as [H1 H2]. rewrite <- Hok. split.
  - intros H. destruct (H1 H) as (m' & Hm & Hs & Hpx). exists m'.
    repeat split; auto. intros x y z. rewrite <- Harea. apply Hpx.
  - exact H2.
Qed.

Lemma existsb_and (b : bool) {A : Type} (f : A -> bool) (l : list A) :
  existsb (fun a => b && f a) l = b && existsb f l.
Proof.
  induction l as [|a l IH]; cbn [existsb]; [now rewrite andb_false_r|].
  rewrite IH. destruct b; reflexivity.
Qed.

Lemma box_area_rows (bx : bool) (r1 r2 : list nat) (y' z' : nat) :
  existsb (fun y => existsb (fun z => (bx && (y' =? y) && (z' =? z))%nat) r2) r1
  = bx && (existsb (Nat.eqb y') r1 && existsb (Nat.eqb z') r2).
Proof.
  induction r1 as [|y r1 IH]; cbn [existsb].
  - now rewrite andb_false_r.
  - rewrite IH, (existsb_and (bx && (y' =? y)%nat) (Nat.eqb z') r2).
    destruct bx, (y' =? y)%nat, (existsb (Nat.eqb y') r1),
      (existsb (Nat.eqb z') r2); reflexivity.
Qed.

Lemma box_area (r0 r1 r2 : list nat) (x' y' z' : nat) :
  existsb (fun x =>
    existsb (fun y =>
      existsb (fun z => ((x' =? x) && (y' =? y) && (z' =? z))%nat) r2) r1) r0
  = in_box r0 r1 r2 x' y' z'.
Proof.
  unfold in_box. induction r0 as [|x r0 IH]; cbn [existsb]; [reflexivity|].
  rewrite IH, box_area_rows.
  destruct (x' =? x)%nat, (existsb (Nat.eqb x') r0), (existsb (Nat.eqb y') r1),
    (existsb (Nat.eqb z') r2); reflexivity.
Qed.

(** The three nested loops paint the box and need it to fit. *)
Lemma fill_mask_painter (r0 r1 r2 : list nat) :
  painter (fill_mask [r0; r1; r2]) (box_fits r0 r1 r2) (in_box r0 r1 r2).
Proof.
  unfold fill_mask, item. cbn [lookup list_lookup].
  eapply painter_ext;
    [| |apply (painter_for_each
                 (fun m x =>
                    for_each r1
                      (fun m y => for_each r2 (fun m z => set_pixel m x y z mask_value) m)
                      m)
                 (fun x sz =>
                    forallb (fun y =>
                      forallb (fun z =>
                        let '(sx, sy, sz) := sz in
                        ((x <? sx) && (y <? sy) && (z <? sz))%nat) r2) r1)
                 (fun x x' y' z' =>
                    existsb (fun y =>
                      existsb (fun z =>
                        ((x' =? x) && (y' =? y) && (z' =? z))%nat) r2) r1))].
  - intros [[sx sy] sz]. reflexivity.
  - intros x y z. apply box_area.
  - intros x.
    apply (painter_for_each
             (fun m y => for_each r2 (fun m z => set_pixel m x y z mask_value) m)
             (fun y sz =>
                forallb (fun z =>
                  let '(sx, sy, sz) := sz in
                  ((x <? sx) && (y <? sy) && (z <? sz))%nat) r2)
             (fun y x' y' z' =>
                existsb (fun z => ((x' =? x) && (y' =? y) && (z' =? z))%nat) r2)).
    intros y.
    apply (painter_for_each
             (fun m z => set_pixel m x y z mask_value)
             (fun z sz =>
                let '(sx, sy, sz) := sz in
                ((x <? sx) && (y <? sy) && (z <? sz))%nat)
             (fun z x' y' z' => ((x' =? x) && (y' =? y) && (z' =? z))%nat)).
    intros z. apply set_pixel_painter.
Qed.

End RoiFacts.

Section RoiMoreFacts.

Import SphereFit Roi.

Lemma in_box_spec (r0 r1 r2 : list nat) (x y z : nat) :
  in_box r0 r1 r2 x y z = true <-> In x r0 /\ In y r1 /\ In z r2.
Proof.
  unfold in_box. rewrite !andb_true_iff, !existsb_exists.
  split.
  - intros [[(a & Ha & Ea) (b & Hb & Eb)] (c & Hc & Ec)].
    apply Nat.eqb_eq in Ea, Eb, Ec. subst. auto.
  - intros (Hx & Hy & Hz).
    repeat split; eexists; (split; [eassumption|apply Nat.eqb_refl]).
Qed.

Lemma box_fits_spec (r0 r1 r2 : list nat) (sx sy sz : nat) :
  box_fits r0 r1 r2 (sx, sy, sz) = true <->
  (forall x y z, In x r0 -> In y r1 -> In z r2 ->
                 (x < sx)%nat /\ (y < sy)%nat /\ (z < sz)%nat).
Proof.
  unfold box_fits. rewrite forallb_forall. split.
  - intros H x y z Hx Hy Hz.
    specialize (H x Hx). rewrite forallb_forall in H.
    specialize (H y Hy). rewrite forallb_forall in H.
    specialize (H z Hz). rewrite !andb_true_iff, !Nat.ltb_lt in H. tauto.
  - intros H x Hx. apply forallb_forall. intros y Hy.
    apply forallb_forall. intros z Hz.
    rewrite !andb_true_iff, !Nat.ltb_lt. specialize (H x y z Hx Hy Hz). tauto.
Qed.

Lemma dict_get_missing {V : Type} (key : string) (items : list (string * V)) :
  ~ In key (map fst items) -> Registration.dict_get key items = None.
Proof.
  induction items as [|[k v] items IH]; intros Hnot; [reflexivity|].
  cbn [Registration.dict_get]. destruct (String.eqb key k) eqn:E.
  - apply String.eqb_eq in E. subst k. exfalso. apply Hnot. left. reflexivity.
  - apply IH. intros Hin. apply Hnot. right. exact Hin.
Qed.

Lemma py2_range_last (a b : nat) :
  (a < b)%nat -> last_item (py2_range a b) = Return (b - 1)%nat.
Proof.
  intros Hab. unfold py2_range, last_item.
  replace (b - a)%nat with (S (b - a - 1)) by lia.
  rewrite seq_S. destruct (seq a (b - a - 1) ++ [(a + (b - a - 1))%nat]) eqn:E.
  - apply app_eq_nil in E. destruct E as [_ E]. discriminate E.
  - rewrite <- E. rewrite List.last_last. f_equal. lia.
Qed.

Lemma py2_range_first (a b : nat) :
  (a < b)%nat -> first_item (py2_range a b) = Return a.
Proof.
  intros Hab. unfold py2_range, first_item, item.
  replace (b - a)%nat with (S (b - a - 1)) by lia. reflexivity.
Qed.

(** The axis of the crop for a range [range(a, b)] inside the image. *)
Lemma crop_axis_range (ranges : list (list nat)) (axis n a b : nat) :
  ranges !! axis = Some (py2_range a b) ->
  (a < b)%nat -> (b <= n)%nat ->
  crop_axis ranges axis n = Return (py2_range a (b - 1)).
Proof.
  intros Hr Hab Hbn. unfold crop_axis, item. rewrite Hr.
  rewrite py2_range_first, py2_range_last by exact Hab.
  unfold slice_indices, py2_range. do 2 f_equal; lia.
Qed.

End RoiMoreFacts.

Section RoiExtras.

Import SphereFit Roi.

(** X17.  When the chosen name is a key holding three ranges whose box
    lies inside the image, the callback makes a fresh mask of the size of
    the image in which exactly the voxels of the box hold 255 and all
    others 0, and it records the ranges. *)
Theorem select_roi_paints_box (sx sy sz : nat) (roi_name : string)
    (roi_dict : list (string * list (list nat))) (g : globals)
    (r0 r1 r2 : list nat) :
  Registration.dict_get roi_name roi_dict = Some [r0; r1; r2] ->
  (forall x y z, In x r0 -> In y r1 -> In z r2 ->
                 (x < sx)%nat /\ (y < sy)%nat /\ (z < sz)%nat) ->
  exists m,
    select_roi_dropdown_callback (sx, sy, sz) roi_name roi_dict g
    = Return {| mask := Some m; mask_ranges := Some [r0; r1; r2] |} /\
    size m = (sx, sy, sz) /\
    forall x y z,
      (In x r0 /\ In y r1 /\ In z r2 -> pixel m x y z = 255%Z) /\
      (~ (In x r0 /\ In y r1 /\ In z r2) -> pixel m x y z = 0%Z).
Proof.
  intros Hget Hfit. apply box_fits_spec in Hfit.
  unfold select_roi_dropdown_callback. rewrite Hget.
  destruct (fill_mask_painter r0 r1 r2 (new_image (sx, sy, sz))) as [Hok _].
  destruct (Hok Hfit) as (m & Hm & Hsize & Hpx).
  exists m. rewrite Hm. split; [reflexivity|]. split; [exact Hsize|].
  intros x y z. rewrite Hpx. cbn [new_image pixel].
  pose proof (in_box_spec r0 r1 r2 x y z) as Hbox.
  destruct (in_box r0 r1 r2 x y z); split; intros H; try reflexivity.
  - exfalso. apply H, Hbox. reflexivity.
  - apply Hbox in H. discriminate H.
Qed.

(** X18.  When some voxel of the box lies outside the image the callback
    raises an IndexError. *)
Theorem select_roi_outside_image_raises (sx sy sz : nat) (roi_name : string)
    (roi_dict : list (string * list (list nat))) (g : globals)
    (r0 r1 r2 : list nat) (x y z : nat) :
  Registration.dict_get roi_name roi_dict = Some [r0; r1; r2] ->
  In x r0 -> In y r1 -> In z r2 ->
  ~ ((x < sx)%nat /\ (y < sy)%nat /\ (z < sz)%nat) ->
  select_roi_dropdown_callback (sx, sy, sz) roi_name roi_dict g
  = Raise "IndexError".
Proof.
  intros Hget Hx Hy Hz Hout.
  unfold select_roi_dropdown_callback. rewrite Hget.
  destruct (fill_mask_painter r0 r1 r2 (new_image (sx, sy, sz))) as [_ Hbad].
  rewrite Hbad; [reflexivity|].
  cbn [new_image size].
  destruct (box_fits r0 r1 r2 (sx, sy, sz)) eqn:Hfit; [|reflexivity].
  exfalso. apply Hout. rewrite box_fits_spec in Hfit. apply Hfit; assumption.
Qed.

(** X19.  The first entry of the drop-down list, 'Select ROI', is offered
    but is no key of the dictionary: choosing it leaves the mask as it
    was and sets mask_ranges to None, after which the crop cell raises a
    TypeError. *)
Theorem select_roi_placeholder_clears_ranges (image_size : nat * nat * nat)
    (roi_dict : list (string * list (list nat))) (g : globals) :
  ~ In "Select ROI"%string (map fst roi_dict) ->
  roi_list roi_dict !! 0%nat = Some "Select ROI"%string /\
  select_roi_dropdown_callback image_size "Select ROI" roi_dict g
  = Return {| mask := mask g; mask_ranges := None |} /\
  crop_region image_size {| mask := mask g; mask_ranges := None |}
  = Raise "TypeError".
Proof.
  intros Hkey. split; [reflexivity|]. split; [|reflexivity].
  unfold select_roi_dropdown_callback.
  rewrite (dict_get_missing _ _ Hkey). reflexivity.
Qed.

(** X20.  The crop cell slices each axis from the first to the last
    entry of its range, and a slice leaves its end out: for ranges
    range(a, b) inside the image the crop covers a .. b-2 on each axis,
    one index fewer than the mask, whose last index b-1 it misses. *)
Theorem crop_region_misses_last_index (sx sy sz : nat) (g : globals)
    (a0 b0 a1 b1 a2 b2 : nat) :
  mask_ranges g = Some [py2_range a0 b0; py2_range a1 b1; py2_range a2 b2] ->
  (a0 < b0 <= sx)%nat -> (a1 < b1 <= sy)%nat -> (a2 < b2 <= sz)%nat ->
  crop_region (sx, sy, sz) g
  = Return (py2_range a0 (b0 - 1), py2_range a1 (b1 - 1), py2_range a2 (b2 - 1)) /\
  (length (py2_range a0 (b0 - 1)) = length (py2_range a0 b0) - 1)%nat /\
  (length (py2_range a1 (b1 - 1)) = length (py2_range a1 b1) - 1)%nat /\
  (length (py2_range a2 (b2 - 1)) = length (py2_range a2 b2) - 1)%nat /\
  (In (b0 - 1)%nat (py2_range a0 b0) /\ ~ In (b0 - 1)%nat (py2_range a0 (b0 - 1))) /\
  (In (b1 - 1)%nat (py2_range a1 b1) /\ ~ In (b1 - 1)%nat (py2_range a1 (b1 - 1))) /\
  (In (b2 - 1)%nat (py2_range a2 b2) /\ ~ In (b2 - 1)%nat (py2_range a2 (b2 - 1))).
Proof.
  intros Hranges H0 H1 H2. unfold crop_region. rewrite Hranges.
  rewrite (crop_axis_range _ 0 sx a0 b0), (crop_axis_range _ 1 sy a1 b1),
    (crop_axis_range _ 2 sz a2 b2) by (reflexivity || lia).
  split; [reflexivity|].
  unfold py2_range. rewrite !length_seq, !in_seq. lia.
Qed.

End RoiExtras.

Section RoiWorkedInputs.

Import SphereFit Roi.

(** ROI1 in an image of 512 x 512 x 60 voxels. *)
Lemma select_roi_paints_box_witness :
  exists m,
    select_roi_dropdown_callback (512, 512, 60)%nat "ROI1" rois
      {| mask := None; mask_ranges := None |}
    = Return {| mask := Some m;
                mask_ranges := Some [py2_range 280 320; py2_range 65 90;
                                     py2_range 8 30] |} /\
    size m = (512, 512, 60)%nat /\
    forall x y z,
      (In x (py2_range 280 320) /\ In y (py2_range 65 90) /\ In z (py2_range 8 30) ->
       pixel m x y z = 255%Z) /\
      (~ (In x (py2_range 280 320) /\ In y (py2_range 65 90) /\
          In z (py2_range 8 30)) -> pixel m x y z = 0%Z).
Proof.
  apply (select_roi_paints_box 512 512 60 "ROI1" rois
           {| mask := None; mask_ranges := None |}).
  - reflexivity.
  - intros x y z Hx Hy Hz. unfold py2_range in *.
    apply in_seq in Hx, Hy, Hz. lia.
Defined.

(** ROI1 in an image of only 20 slices: z = 20 is in the box. *)
Lemma select_roi_outside_image_raises_witness :
  select_roi_dropdown_callback (512, 512, 20)%nat "ROI1" rois
    {| mask := None; mask_ranges := None |}
  = Raise "IndexError".
Proof.
  apply (select_roi_outside_image_raises 512 512 20 "ROI1" rois
           {| mask := None; mask_ranges := None |}
           (py2_range 280 320) (py2_range 65 90) (py2_range 8 30) 280 65 20).
  - reflexivity.
  - unfold py2_range. apply in_seq. lia.
  - unfold py2_range. apply in_seq. lia.
  - unfold py2_range. apply in_seq. lia.
  - lia.
Defined.

(** The dictionary of the notebook has the keys ROI1 and ROI2 only. *)
Lemma select_roi_placeholder_clears_ranges_witness :
  select_roi_dropdown_callback (512, 512, 60)%nat "Select ROI" rois
    {| mask := None; mask_ranges := None |}
  = Return {| mask := None; mask_ranges := None |}.
Proof.
  apply (select_roi_placeholder_clears_ranges (512, 512, 60)%nat rois
           {| mask := None; mask_ranges := None |}).
  simpl. intros [H|[H|[]]]; discriminate H.
Defined.

(** ROI1: the mask covers x = 280..319, the crop x = 280..318. *)
Lemma crop_region_misses_last_index_witness :
  crop_region (512, 512, 60)%nat
    {| mask := None;
       mask_ranges := Some [py2_range 280 320; py2_range 65 90; py2_range 8 30] |}
  = Return (py2_range 280 (320 - 1), py2_range 65 (90 - 1), py2_range 8 (30 - 1)).
Proof.
  apply (crop_region_misses_last_index 512 512 60
           {| mask := None;
              mask_ranges := Some [py2_range 280 320; py2_range 65 90;
                                   py2_range 8 30] |}
           280 320 65 90 8 30); (reflexivity || lia).
Defined.

End RoiWorkedInputs.

Section TileWorkedInputs.

Import Display.

(** Two slices along y and one along z of an image coded by numbers:
    the second row holds the z-slice and then the empty image. *)
Lemma myshow3d_rows_witness :
  fst (fst (myshow3d_slices Z (fun _ s => s) (fun _ s => 100 + s)
              (fun _ s => 200 + s) (fun _ => -1) 0 [] [1; 2] [3]))%Z !! 3%nat
  = Some (-1)%Z.
Proof.
  pose proof (myshow3d_rows Z (fun _ s => s) (fun _ s => 100 + s)
                (fun _ s => 200 + s) (fun _ => -1) 0 [] [1; 2] [3] 1)%Z as H.
  cbn in H. destruct H as (_ & _ & Hz); [lia|].
  apply Hz. discriminate.
Defined.

End TileWorkedInputs.

Section RoiHistogram.

Import SphereFit Roi.

(** X21.  The histogram cell slices the array with the same first and
    last entries of the ranges: for ranges range(a, b) inside the image
    it takes (b2-a2-1)(b1-a1-1)(b0-a0-1) intensity values, fewer than the
    (b2-a2)(b1-a1)(b0-a0) voxels of the box the mask marks. *)
Theorem roi_intensity_count_short_of_box (sx sy sz : nat) (g : globals)
    (a0 b0 a1 b1 a2 b2 : nat) :
  mask_ranges g = Some [py2_range a0 b0; py2_range a1 b1; py2_range a2 b2] ->
  (a0 < b0 <= sx)%nat -> (a1 < b1 <= sy)%nat -> (a2 < b2 <= sz)%nat ->
  roi_intensity_count (sx, sy, sz) g
  = Return ((b2 - a2 - 1) * (b1 - a1 - 1) * (b0 - a0 - 1))%nat /\
  ((b2 - a2 - 1) * (b1 - a1 - 1) * (b0 - a0 - 1)
   < length (py2_range a2 b2) * length (py2_range a1 b1)
     * length (py2_range a0 b0))%nat.
Proof.
  intros Hranges H0 H1 H2. unfold roi_intensity_count. rewrite Hranges.
  rewrite (crop_axis_range _ 2 sz a2 b2), (crop_axis_range _ 1 sy a1 b1),
    (crop_axis_range _ 0 sx a0 b0) by (reflexivity || lia).
  unfold py2_range. rewrite !length_seq.
  split; [do 2 f_equal; lia|].
  assert (Hz : (b2 - a2 - 1 < b2 - a2)%nat) by lia.
  assert (Hy : (b1 - a1 - 1 < b1 - a1)%nat) by lia.
  assert (Hx : (b0 - a0 - 1 < b0 - a0)%nat) by lia.
  apply Nat.le_lt_trans with ((b2 - a2 - 1) * (b1 - a1 - 1) * (b0 - a0))%nat.
  - apply Nat.mul_le_mono_l. lia.
  - apply Nat.mul_lt_mono_pos_r; [lia|].
    apply Nat.le_lt_trans with ((b2 - a2 - 1) * (b1 - a1))%nat.
    + apply Nat.mul_le_mono_l. lia.
    + apply Nat.mul_lt_mono_pos_r; lia.
Qed.

(** ROI1: 21 x 24 x 39 values for a box of 22 x 25 x 40 voxels. *)
Lemma roi_intensity_count_short_of_box_witness :
  roi_intensity_count (512, 512, 60)%nat
    {| mask := None;
       mask_ranges := Some [py2_range 280 320; py2_range 65 90; py2_range 8 30] |}
  = Return ((30 - 8 - 1) * (90 - 65 - 1) * (320 - 280 - 1))%nat.
Proof.
  apply (roi_intensity_count_short_of_box 512 512 60
           {| mask := None;
              mask_ranges := Some [py2_range 280 320; py2_range 65 90;
                                   py2_range 8 30] |}
           280 320 65 90 8 30); (reflexivity || lia).
Defined.

End RoiHistogram.
